(** * cached_interpolate: the caching interpolant
    A shallow embedding of [cached_interpolate/interpolate.py] (class
    [CachingInterpolant]) and the properties of its locator cache.

    Modelling conventions.
    - A float is read as the rational it denotes ([Q]).  Comparisons are
      exact on floats, so they are the numeric ones ([Qle_bool]).  Arithmetic
      whose result is only a value of the output (offsets, powers, products,
      sums, the builders) is taken exact.  The subtraction of line 152 is
      rounded to float64 ([float64]), since the rounded distances decide
      which index [argmin] returns.
    - A numpy array of dtype complex is kept as its real and its imaginary
      part ([Complex re im]); every operation the class applies to a complex
      array (indexing, product with a real array, sum) acts on the two parts
      alike.
    - A one-dimensional array is a [list]; a two-dimensional array is the
      list of its rows, all of one length.
    - A method is a function in the monad [M]: it takes the instance, and
      returns either a value or the exception raised, together with the
      instance as the method left it (Python keeps the attribute writes made
      before an exception).
    - The backend [bk] is numpy throughout. *)

From Stdlib Require Import QArith Qabs String List Lia Bool Arith.
From stdpp Require Import base list.
Import ListNotations.

Local Open Scope Q_scope.

(** ** Python exceptions and array element types *)

(** The exceptions the class can raise.  [Garbage] is not a Python exception:
    it marks a read of a cell of an array made by [bk.empty] that was never
    written, whose content numpy leaves unspecified. *)
Inductive exn : Set :=
| ValueError | IndexError | AttributeError | TypeError | UnboundLocalError
| Garbage.

Definition result (A : Type) : Type := (exn + A)%type.

Definition rbind {A B} (r : result A) (k : A -> result B) : result B :=
  match r with
  | inl e => inl e
  | inr a => k a
  end.

(** An array with its dtype: float or complex. *)
Inductive dtyped (A : Type) : Type :=
| Real (a : A)
| Complex (re im : A).
Arguments Real {A} a.
Arguments Complex {A} re im.

Definition dmap {A B} (f : A -> B) (d : dtyped A) : dtyped B :=
  match d with
  | Real a => Real (f a)
  | Complex re im => Complex (f re) (f im)
  end.

Definition dmap_err {A B} (f : A -> result B) (d : dtyped A)
  : result (dtyped B) :=
  match d with
  | Real a => rbind (f a) (fun b => inr (Real b))
  | Complex re im =>
      rbind (f re) (fun r => rbind (f im) (fun i => inr (Complex r i)))
  end.

(** The coefficient table: one-dimensional for "nearest", two-dimensional
    (polynomial order by interval) for "linear" and "cubic". *)
Inductive table : Type :=
| T1 (v : dtyped (list Q))
| T2 (m : dtyped (list (list Q))).

(** What [__call__] is given as [x]: a number or a one-dimensional array. *)
Inductive query : Type :=
| QScalar (q : Q)
| QArray (l : list Q).

(** What [__call__] returns, by number of dimensions. *)
Inductive output : Type :=
| Out0 (v : dtyped Q)
| Out1 (v : dtyped (list Q))
| Out2 (v : dtyped (list (list Q))).

(** ** numpy primitives used by the class *)

Definition Qgt_bool (a b : Q) : bool := negb (Qle_bool a b).

(** [bk.atleast_1d] *)
Definition atleast_1d (x : query) : list Q :=
  match x with
  | QScalar q => [q]
  | QArray l => l
  end.

(** [a[i]] for a non-negative integer [i]. *)
Definition getitem {A} (a : list A) (i : nat) : result A :=
  match a !! i with
  | Some v => inr v
  | None => inl IndexError
  end.

(** [a[-1]] *)
Definition getlast {A} (a : list A) : result A :=
  match last a with
  | Some v => inr v
  | None => inl IndexError
  end.

(** [a[idxs]] for an integer array [idxs]. *)
Fixpoint take_idxs {A} (a : list A) (idxs : list nat) : result (list A) :=
  match idxs with
  | [] => inr []
  | i :: idxs' =>
      rbind (getitem a i) (fun v =>
      rbind (take_idxs a idxs') (fun vs => inr (v :: vs)))
  end.

(** [a[:, idxs]] on a two-dimensional array. *)
Fixpoint take_cols {A} (a : list (list A)) (idxs : list nat)
  : result (list (list A)) :=
  match a with
  | [] => inr []
  | row :: a' =>
      rbind (take_idxs row idxs) (fun r =>
      rbind (take_cols a' idxs) (fun rs => inr (r :: rs)))
  end.

(** [bk.argmin]: the index of the first occurrence of the minimum. *)
Fixpoint argmin_from (l : list Q) (i best : nat) (bv : Q) : nat :=
  match l with
  | [] => best
  | v :: l' =>
      if Qgt_bool bv v then argmin_from l' (S i) i v
      else argmin_from l' (S i) best bv
  end.

Definition argmin (l : list Q) : result nat :=
  match l with
  | [] => inl ValueError
  | v :: l' => inr (argmin_from l' 1 0 v)
  end.

(** [bk.where(xval > a)[0]]: the positions, in increasing order, of the
    entries that [xval] exceeds. *)
Fixpoint where_gt_from (xval : Q) (a : list Q) (i : nat) : list nat :=
  match a with
  | [] => []
  | v :: a' =>
      if Qgt_bool xval v then i :: where_gt_from xval a' (S i)
      else where_gt_from xval a' (S i)
  end.

Definition where_gt (xval : Q) (a : list Q) : list nat :=
  where_gt_from xval a 0.

(** [bk.ones(shape)] for a one-dimensional shape. *)
Definition ones (n : nat) : list Q := repeat 1 n.

(** [bk.empty(shape, dtype=int)]: cells without a content yet. *)
Definition empty (n : nat) : list (option nat) := repeat None n.

(** Broadcasting of one axis: the common length of two axes of lengths [n]
    and [m], when they are compatible. *)
Definition bcast_len (n m : nat) : option nat :=
  if (n =? m)%nat then Some n
  else if (n =? 1)%nat then Some m
  else if (m =? 1)%nat then Some n
  else None.

Definition bcast_to {A} (n : nat) (l : list A) : list A :=
  match l with
  | [a] => repeat a n
  | _ => l
  end.

(** Elementwise product of two one-dimensional arrays, with broadcasting. *)
Definition mul1 (a b : list Q) : result (list Q) :=
  match bcast_len (length a) (length b) with
  | Some n => inr (zip_with Qmult (bcast_to n a) (bcast_to n b))
  | None => inl ValueError
  end.

Fixpoint mul_rows (a b : list (list Q)) : result (list (list Q)) :=
  match a, b with
  | ra :: a', rb :: b' =>
      rbind (mul1 ra rb) (fun r =>
      rbind (mul_rows a' b') (fun rs => inr (r :: rs)))
  | _, _ => inr []
  end.

(** [a * b] for two-dimensional arrays, with broadcasting on both axes. *)
Definition mul2 (a b : list (list Q)) : result (list (list Q)) :=
  match bcast_len (length a) (length b) with
  | Some n => mul_rows (bcast_to n a) (bcast_to n b)
  | None => inl ValueError
  end.

(** [bk.sum(a, axis=0)] on a two-dimensional array: the sums of the columns. *)
Definition sum_axis0 (a : list (list Q)) : list Q :=
  match a with
  | [] => []
  | r :: rs => fold_left (zip_with Qplus) rs r
  end.

(** [a - b] on one-dimensional arrays of one shape. *)
Definition sub1 (a b : list Q) : list Q := zip_with Qminus a b.

(** ** The coefficient builders of [cached_interpolate/build.py] *)

Definition nthQ (l : list Q) (j : nat) : Q := nth j l 0.

(** Modelled from the spec: [build_linear_interpolant], of the module
    [build.py] that the sources do not contain.  Section 4.2: for each
    interval j, row 0 holds values[j] and row 1 the slope
    (values[j+1] - values[j]) / (knots[j+1] - knots[j]). *)
Definition build_linear_interpolant (xx yy : list Q) : list Q * list Q :=
  let js := seq 0 (length xx - 1) in
  (map (fun j => nthQ yy j) js,
   map (fun j => (nthQ yy (j + 1) - nthQ yy j)
                 / (nthQ xx (j + 1) - nthQ xx j)) js).

(** The tridiagonal solve of the natural cubic spline, which belongs to
    [build.py] as well. *)
Module Spline.
Section Natural.
Variables xx yy : list Q.

(** Modelled from the spec: the interval widths h[j] = knots[j+1] - knots[j]
    of [build_natural_cubic_spline], absent from the sources. *)
Definition h (j : nat) : Q := nthQ xx (j + 1) - nthQ xx j.

(** Modelled from the spec: the divided difference
    (values[j+1] - values[j]) / h[j] of the absent builder. *)
Definition slope (j : nat) : Q := (nthQ yy (j + 1) - nthQ yy j) / h j.

(** Modelled from the spec: the right-hand side of system row j of the
    absent builder, 6 ((values[j+1]-values[j])/h[j]
    - (values[j]-values[j-1])/h[j-1]). *)
Definition rhs (j : nat) : Q := 6 * (slope j - slope (j - 1)).

(** Modelled from the spec: the forward elimination of the absent builder's
    Thomas pass over the interior rows
    h[j-1] M[j-1] + 2 (h[j-1]+h[j]) M[j] + h[j] M[j+1] = rhs j, from the
    boundary row M[0] = 0; it yields the pairs (c', d') of the reduced rows
    M[j] + c' M[j+1] = d'. *)
Fixpoint forward (js : list nat) (c d : Q) : list (Q * Q) :=
  match js with
  | [] => []
  | j :: js' =>
      let den := 2 * (h (j - 1) + h j) - h (j - 1) * c in
      let c' := h j / den in
      let d' := (rhs j - h (j - 1) * d) / den in
      (c', d') :: forward js' c' d'
  end.

(** Modelled from the spec: the back substitution of the absent builder's
    Thomas pass, from the boundary value M[n-1] = 0. *)
Fixpoint backward (rows : list (Q * Q)) : list Q :=
  match rows with
  | [] => [0]
  | (c, d) :: rows' =>
      let ms := backward rows' in
      (d - c * nthQ ms 0) :: ms
  end.

(** Modelled from the spec: the second derivatives M[0..n-1] of the natural
    spline, M[0] = M[n-1] = 0, of the absent builder. *)
Definition second_derivatives : list Q :=
  0 :: backward (forward (seq 1 (length xx - 2)) 0 0).
End Natural.
End Spline.

(** Modelled from the spec: [build_natural_cubic_spline], of the module
    [build.py] that the sources do not contain.  Section 4.2: the second
    derivatives M solve the tridiagonal system of the natural spline, and
    interval j gets the coefficients values[j],
    (values[j+1]-values[j])/h[j] - h[j](2 M[j] + M[j+1])/6, M[j]/2 and
    (M[j+1]-M[j])/(6 h[j]). *)
Definition build_natural_cubic_spline (xx yy : list Q)
  : list Q * list Q * list Q * list Q :=
  let M := Spline.second_derivatives xx yy in
  let h := Spline.h xx in
  let js := seq 0 (length xx - 1) in
  (map (fun j => nthQ yy j) js,
   map (fun j => Spline.slope xx yy j
                 - h j * (2 * nthQ M j + nthQ M (j + 1)) / 6) js,
   map (fun j => nthQ M j / 2) js,
   map (fun j => (nthQ M (j + 1) - nthQ M j) / (6 * h j)) js).

(** [bk.asarray] of a pair of arrays, [bk.stack] of four. *)
Definition asarray2 (t : list Q * list Q) : list (list Q) :=
  let '(aa, bb) := t in [aa; bb].

Definition stack4 (t : list Q * list Q * list Q * list Q) : list (list Q) :=
  let '(aa, bb, cc, dd) := t in [aa; bb; cc; dd].

(** ** The class [CachingInterpolant] *)

(** The instance attributes.  [_idxs] and [_diffs] do not exist until
    [_construct_cache] assigns them ([None] here); a cell of [_idxs] is
    [None] between [bk.empty] and the assignment that fills it. *)
Record CachingInterpolant : Type := Build_CachingInterpolant {
  return_float : bool;
  x_array : list Q;
  y_array : dtyped (list Q);
  _data : option table;
  _kind : string;
  _cached : bool;
  _idxs : option (list (option nat));
  _diffs : option (list (list Q));
}.

Definition set_return_float (b : bool) (s : CachingInterpolant) :=
  Build_CachingInterpolant b (x_array s) (y_array s) (_data s) (_kind s)
    (_cached s) (_idxs s) (_diffs s).
Definition set_y_array (y : dtyped (list Q)) (s : CachingInterpolant) :=
  Build_CachingInterpolant (return_float s) (x_array s) y (_data s) (_kind s)
    (_cached s) (_idxs s) (_diffs s).
Definition set_data (d : option table) (s : CachingInterpolant) :=
  Build_CachingInterpolant (return_float s) (x_array s) (y_array s) d (_kind s)
    (_cached s) (_idxs s) (_diffs s).
Definition set__kind (k : string) (s : CachingInterpolant) :=
  Build_CachingInterpolant (return_float s) (x_array s) (y_array s) (_data s) k
    (_cached s) (_idxs s) (_diffs s).
Definition set_cached (b : bool) (s : CachingInterpolant) :=
  Build_CachingInterpolant (return_float s) (x_array s) (y_array s) (_data s)
    (_kind s) b (_idxs s) (_diffs s).
Definition set_idxs (i : option (list (option nat))) (s : CachingInterpolant) :=
  Build_CachingInterpolant (return_float s) (x_array s) (y_array s) (_data s)
    (_kind s) (_cached s) i (_diffs s).
Definition set_diffs (d : option (list (list Q))) (s : CachingInterpolant) :=
  Build_CachingInterpolant (return_float s) (x_array s) (y_array s) (_data s)
    (_kind s) (_cached s) (_idxs s) d.

(** *** The method monad *)

Definition M (A : Type) : Type :=
  CachingInterpolant -> result A * CachingInterpolant.

Definition ret {A} (a : A) : M A := fun s => (inr a, s).
Definition raise {A} (e : exn) : M A := fun s => (inl e, s).
Definition bind {A B} (m : M A) (k : A -> M B) : M B :=
  fun s =>
    match m s with
    | (inr a, s') => k a s'
    | (inl e, s') => (inl e, s')
    end.
Definition get {A} (f : CachingInterpolant -> A) : M A := fun s => (inr (f s), s).
Definition modify (f : CachingInterpolant -> CachingInterpolant) : M unit :=
  fun s => (inr tt, f s).
Definition lift {A} (r : result A) : M A := fun s => (r, s).
(** Reading an attribute that may not exist yet. *)
Definition getattr {A} (f : CachingInterpolant -> option A) : M A :=
  fun s =>
    match f s with
    | Some a => (inr a, s)
    | None => (inl AttributeError, s)
    end.

Declare Scope method_scope.
Delimit Scope method_scope with method.
Notation "'do' x <- m ; k" := (bind m (fun x => k))
  (at level 10, x name, m at level 100, k at level 200,
   format "'[v' 'do'  x  <-  m ; '/' k ']'") : method_scope.
Local Open Scope method_scope.

(** [for ii, a in enumerate(l): body], counting from [ii]. *)
Fixpoint for_enumerate {A} (body : nat -> A -> M unit) (ii : nat) (l : list A)
  : M unit :=
  match l with
  | [] => ret tt
  | a :: l' => do _ <- body ii a; for_enumerate body (S ii) l'
  end.

(** *** Construction and the coefficient table *)

(** [build] (lines 106-131); a kind that matches no branch falls off the end
    of the method, which returns [None]. *)
Definition build (self : CachingInterpolant) : option table :=
  if (_kind self =? "cubic")%string then
    match y_array self with
    | Complex re im =>
        let real_ := stack4 (build_natural_cubic_spline (x_array self) re) in
        let imag_ := stack4 (build_natural_cubic_spline (x_array self) im) in
        Some (T2 (Complex real_ imag_))
    | Real yy =>
        Some (T2 (Real (stack4 (build_natural_cubic_spline (x_array self) yy))))
    end
  else if (_kind self =? "linear")%string then
    Some (T2 (dmap (fun yy => asarray2 (build_linear_interpolant (x_array self) yy))
                   (y_array self)))
  else if (_kind self =? "nearest")%string then
    Some (T1 (y_array self))
  else None.

(** The setter of the property [kind] (lines 98-104);
    [bk.asarray(list(data))] is [data] again. *)
Definition kind_setter (kind : string) : M unit :=
  do _ <- modify (set__kind kind);
  do data <- get build;
  modify (set_data data).

Definition allowed_kinds : list string :=
  ["nearest"; "linear"; "cubic"]%string.

(** [__init__] (lines 83-92).  The record is created with the attributes
    assigned before [self.kind = kind]; [_kind] and [_cached], not yet
    assigned there, are given the values the following lines write. *)
Definition __init__ (x : list Q) (y : dtyped (list Q)) (kind : string)
  : result CachingInterpolant :=
  if negb (existsb (String.eqb kind) allowed_kinds) then inl ValueError
  else
    let self :=
      {| return_float := false; x_array := x; y_array := y; _data := None;
         _kind := kind; _cached := false; _idxs := None; _diffs := None |} in
    match (do _ <- kind_setter kind; modify (set_cached false)) self with
    | (inr _, self') => inr self'
    | (inl e, _) => inl e
    end.

(** *** The locator: [_construct_cache] (lines 133-167) *)

(** [self._idxs[ii] = v] *)
Definition setitem_idxs (ii v : nat) : M unit :=
  do cells <- getattr _idxs;
  if (ii <? length cells)%nat
  then modify (set_idxs (Some (<[ii := Some v]> cells)))
  else raise IndexError.

(** The content of an integer array, once every cell is written. *)
Fixpoint read_cells (cells : list (option nat)) : result (list nat) :=
  match cells with
  | [] => inr []
  | None :: _ => inl Garbage
  | Some i :: cells' => rbind (read_cells cells') (fun idxs => inr (i :: idxs))
  end.

(** [x_values - x_array[self._idxs]] *)
Definition offsets (x_array x_values : list Q) : M (list Q) :=
  do cells <- getattr _idxs;
  do idxs <- lift (read_cells cells);
  do xi <- lift (take_idxs x_array idxs);
  ret (sub1 x_values xi).

(** *** Rounding to float64 *)

(** 2^k as a rational. *)
Definition Qpow2 (k : Z) : Q :=
  if (0 <=? k)%Z then inject_Z (2 ^ k) else 1 # Z.to_pos (2 ^ (- k)).

(** The integer nearest to n/d for n >= 0, the even one of the two when n/d
    lies half-way. *)
Definition round_half_even (n : Z) (d : positive) : Z :=
  let f := (n / Zpos d)%Z in
  let r := (n mod Zpos d)%Z in
  match (2 * r ?= Zpos d)%Z with
  | Lt => f
  | Gt => (f + 1)%Z
  | Eq => if Z.even f then f else (f + 1)%Z
  end.

(** The exponent e with 2^e <= |q| < 2^(e+1), for q other than 0. *)
Definition Qlog2 (q : Q) : Z :=
  let e0 := (Z.log2 (Z.abs (Qnum q)) - Z.log2 (Zpos (Qden q)))%Z in
  if Qle_bool (Qpow2 e0) (Qabs q) then e0 else (e0 - 1)%Z.

(** The result of a float64 operation whose exact result is [q]: [q] rounded
    to the nearest multiple of 2^(e-52), e the exponent of [q] and at least
    -1022, ties to the even multiple.  A result of magnitude 2^1024 or more is
    an infinity; it is kept as 2^1024 with its sign, which compares with the
    finite floats and with itself as the infinity does.  The difference of two
    finite floats is never a NaN. *)
Definition float64 (q : Q) : Q :=
  if Qeq_bool q 0 then 0
  else
    let k := (Z.max (Qlog2 q) (-1022) - 52)%Z in
    let m := Qabs q / Qpow2 k in
    let r := Qred (inject_Z (round_half_even (Qnum m) (Qden m)) * Qpow2 k) in
    let r := if Qle_bool (Qpow2 1024) r then Qpow2 1024 else r in
    if Qle_bool 0 q then r else - r.

(** Line 152, the body of the "nearest" loop; [xval - x_array] is a float64
    subtraction, [abs] and the comparisons of [argmin] are exact. *)
Definition nearest_body (x_array : list Q) (ii : nat) (xval : Q) : M unit :=
  do i <- lift (argmin (map (fun xk => Qabs (float64 (xval - xk))) x_array));
  setitem_idxs ii i.

(** Lines 155-158, the body of the "linear"/"cubic" loop. *)
Definition bracket_body (x_array : list Q) (ii : nat) (xval : Q) : M unit :=
  do x0 <- lift (getitem x_array 0);
  if Qle_bool xval x0 then setitem_idxs ii 0
  else
    do i <- lift (getlast (where_gt xval x_array));
    setitem_idxs ii i.

Definition _construct_cache (x_values : query) : M unit :=
  do x_array <- get x_array;
  let x_values := atleast_1d x_values in
  do _ <- (if (length x_values =? 1)%nat
           then modify (set_return_float true) else ret tt);
  do _ <- modify (set_cached true);
  do _ <- modify (set_idxs (Some (empty (length x_values))));
  do kind <- get _kind;
  if (kind =? "nearest")%string then
    for_enumerate (nearest_body x_array) 0 x_values
  else
    do _ <- for_enumerate (bracket_body x_array) 0 x_values;
    do d <- offsets x_array x_values;
    let diffs := [ones (length x_values); d] in
    do kind <- get _kind;
    if (kind =? "cubic")%string then
      do d2 <- offsets x_array x_values;
      do d3 <- offsets x_array x_values;
      modify (set_diffs (Some (diffs ++ [map (fun v => v ^ 2) d2;
                                         map (fun v => v ^ 3) d3])))
    else modify (set_diffs (Some diffs)).

(** *** The evaluator (lines 197-204) *)

(** [self._data[self._idxs]] *)
Definition _call_nearest : M output :=
  do data <- get _data;
  do cells <- getattr _idxs;
  match data with
  | None => raise TypeError
  | Some (T1 v) =>
      do idxs <- lift (read_cells cells);
      do r <- lift (dmap_err (fun a => take_idxs a idxs) v);
      ret (Out1 r)
  | Some (T2 m) =>
      do idxs <- lift (read_cells cells);
      do r <- lift (dmap_err (fun a => take_idxs a idxs) m);
      ret (Out2 r)
  end.

(** [self.bk.sum(self._data[:, self._idxs] * self._diffs, axis=0)]; a
    one-dimensional [_data] cannot take two indices. *)
Definition _call_linear : M output :=
  do data <- get _data;
  do cells <- getattr _idxs;
  do cols <- match data with
             | None => raise TypeError
             | Some (T1 _) => raise IndexError
             | Some (T2 m) =>
                 do idxs <- lift (read_cells cells);
                 lift (dmap_err (fun a => take_cols a idxs) m)
             end;
  do diffs <- getattr _diffs;
  do prod <- lift (dmap_err (fun a => mul2 a diffs) cols);
  ret (Out1 (dmap sum_axis0 prod)).

Definition _call_cubic : M output :=
  do data <- get _data;
  do cells <- getattr _idxs;
  do cols <- match data with
             | None => raise TypeError
             | Some (T1 _) => raise IndexError
             | Some (T2 m) =>
                 do idxs <- lift (read_cells cells);
                 lift (dmap_err (fun a => take_cols a idxs) m)
             end;
  do diffs <- getattr _diffs;
  do prod <- lift (dmap_err (fun a => mul2 a diffs) cols);
  ret (Out1 (dmap sum_axis0 prod)).

(** [out[0]] *)
Definition out_getitem0 (out : output) : result output :=
  match out with
  | Out0 _ => inl IndexError
  | Out1 v => rbind (dmap_err (fun a => getitem a 0) v) (fun r => inr (Out0 r))
  | Out2 v => rbind (dmap_err (fun a => getitem a 0) v) (fun r => inr (Out1 r))
  end.

(** *** The orchestrator: [__call__] (lines 169-195) *)

(** Lines 182-184: the value update. *)
Definition update_values (y : option (dtyped (list Q))) : M unit :=
  match y with
  | Some y =>
      do _ <- modify (set_y_array y);
      do data <- get build;
      modify (set_data data)
  | None => ret tt
  end.

(** Lines 187-192: the dispatch on the kind; with a kind that matches no
    branch [out] stays unbound, and both uses of it below raise. *)
Definition evaluate_kind : M output :=
  do kind <- get _kind;
  if (kind =? "cubic")%string then _call_cubic
  else if (kind =? "linear")%string then _call_linear
  else if (kind =? "nearest")%string then _call_nearest
  else raise UnboundLocalError.

Definition __call__ (x : query) (y : option (dtyped (list Q)))
  (use_cache : bool) : M output :=
  do _ <- update_values y;
  do cached <- get _cached;
  do _ <- (if negb (cached && use_cache) then _construct_cache x else ret tt);
  do out <- evaluate_kind;
  do rf <- get return_float;
  if rf then lift (out_getitem0 out) else ret out.

(** ** What the locator computes, in closed form *)

(** The index the "linear"/"cubic" loop body writes for [xval] (lines
    155-158). *)
Definition bracket (x_array : list Q) (xval : Q) : nat :=
  match x_array with
  | [] => 0%nat
  | x0 :: _ =>
      if Qle_bool xval x0 then 0%nat
      else default 0%nat (last (where_gt xval x_array))
  end.

(** The index the "nearest" loop body writes for [xval] (line 152): the first
    minimum of the magnitudes of the float64 differences. *)
Definition nearest_index (x_array : list Q) (xval : Q) : nat :=
  match map (fun xk => Qabs (float64 (xval - xk))) x_array with
  | [] => 0%nat
  | v :: l => argmin_from l 1 0 v
  end.

Definition locate (kind : string) (x_array x_values : list Q) : list nat :=
  if (kind =? "nearest")%string then map (nearest_index x_array) x_values
  else map (bracket x_array) x_values.

(** The offset-power table of lines 159-167. *)
Definition powers (kind : string) (x_array x_values : list Q) : list (list Q) :=
  let d := sub1 x_values (map (nthQ x_array) (map (bracket x_array) x_values)) in
  if (kind =? "cubic")%string
  then [ones (length x_values); d; map (fun v => v ^ 2) d; map (fun v => v ^ 3) d]
  else [ones (length x_values); d].

(** The instance as [_construct_cache] leaves it when no step raises. *)
Definition located (x : query) (s : CachingInterpolant) : CachingInterpolant :=
  let x_values := atleast_1d x in
  let s1 := if (length x_values =? 1)%nat then set_return_float true s else s in
  let s2 := set_idxs (Some (map Some (locate (_kind s) (x_array s) x_values)))
              (set_cached true s1) in
  if (_kind s =? "nearest")%string then s2
  else set_diffs (Some (powers (_kind s) (x_array s) x_values)) s2.

(** The unwrapping of lines 193-195. *)
Definition unwrap (out : output) : M output :=
  do rf <- get return_float;
  if rf then lift (out_getitem0 out) else ret out.

(** Strictly increasing knots, as a test. *)
Fixpoint increasing (x : list Q) : bool :=
  match x with
  | a :: (b :: _) as x' => Qgt_bool b a && increasing x'
  | _ => true
  end.

(** The number of entries of each part of an array, and the shape of an
    output. *)
Definition dall {A} (P : A -> Prop) (d : dtyped A) : Prop :=
  match d with
  | Real a => P a
  | Complex re im => P re /\ P im
  end.

Definition is_number (out : output) : Prop :=
  match out with Out0 _ => True | _ => False end.

Definition is_sequence (n : nat) (out : output) : Prop :=
  match out with
  | Out1 v => dall (fun a => length a = n) v
  | _ => False
  end.

(** The instance a successful [__init__] returns. *)
Definition constructed (x : list Q) (y : dtyped (list Q)) (kind : string)
  : CachingInterpolant :=
  let s := {| return_float := false; x_array := x; y_array := y;
              _data := None; _kind := kind; _cached := false;
              _idxs := None; _diffs := None |} in
  set_data (build s) s.

(** The instance after the value update of lines 182-184. *)
Definition revalued (y : option (dtyped (list Q))) (s : CachingInterpolant)
  : CachingInterpolant :=
  match y with
  | Some y' => set_data (build (set_y_array y' s)) (set_y_array y' s)
  | None => s
  end.

Definition dallb {A} (p : A -> bool) (d : dtyped A) : bool :=
  match d with
  | Real a => p a
  | Complex re im => p re && p im
  end.

(** A two-dimensional array of [r] rows and [c] columns. *)
Definition has_shape (r c : nat) (a : list (list Q)) : bool :=
  (length a =? r)%nat && forallb (fun row => (length row =? c)%nat) a.

(** The table has the shape of its kind over n knots: n values for
    "nearest", 2 rows of n-1 columns for "linear", 4 rows of n-1 columns for
    "cubic". *)
Definition well_shaped (s : CachingInterpolant) : bool :=
  let n := length (x_array s) in
  match _data s with
  | Some (T1 v) =>
      (_kind s =? "nearest")%string && dallb (fun a => (length a =? n)%nat) v
  | Some (T2 m) =>
      ((_kind s =? "linear")%string && dallb (has_shape 2 (n - 1)) m)
      || ((_kind s =? "cubic")%string && dallb (has_shape 4 (n - 1)) m)
  | None => false
  end.

(** Every query point is at or below the last knot. *)
Definition in_range (x_array x_values : list Q) : bool :=
  match last x_array with
  | Some xn => forallb (fun q => Qle_bool q xn) x_values
  | None => false
  end.

(** Two instances with the same locator cache (bracket indices, offset
    powers, cache-valid flag), scalar-result flag, knots and kind. *)
Definition same_locator_cache (s s' : CachingInterpolant) : Prop :=
  _idxs s' = _idxs s /\ _diffs s' = _diffs s /\ _cached s' = _cached s /\
  return_float s' = return_float s /\
  x_array s' = x_array s /\ _kind s' = _kind s.

(** What lines 193-195 return for the one-dimensional real output [outs] of
    the evaluator, under the scalar-result flag [rf]. *)
Definition answer (rf : bool) (outs : list Q) : result output :=
  if rf then
    match outs with
    | v :: _ => inr (Out0 (Real v))
    | [] => inl IndexError
    end
  else inr (Out1 (Real outs)).

(** Case analysis on the innermost scrutinee of the goal, to run a method
    body step by step. *)
Ltac destruct_scrutinee :=
  match goal with
  | |- context [match ?e with _ => _ end] =>
      lazymatch e with
      | context [match _ with _ => _ end] => fail
      | _ => destruct e eqn:?
      end
  end.

Ltac run_method :=
  unfold bind, get, getattr, lift, raise, ret;
  repeat (destruct_scrutinee; simpl);
  try reflexivity.

(** * Properties *)

(** ** The method monad *)

Lemma bind_inr {A B} (m : M A) (k : A -> M B) s a s' :
  m s = (inr a, s') -> bind m k s = k a s'.
Proof. intros H. unfold bind. now rewrite H. Qed.

Lemma bind_inl {A B} (m : M A) (k : A -> M B) s e s' :
  m s = (inl e, s') -> bind m k s = (inl e, s').
Proof. intros H. unfold bind. now rewrite H. Qed.

(** ** Comparisons *)

Lemma Qgt_bool_true a b : Qgt_bool a b = true <-> b < a.
Proof.
  unfold Qgt_bool. rewrite negb_true_iff.
  split; intros H.
  - apply Qnot_le_lt. intros Hle. apply Qle_bool_iff in Hle. congruence.
  - destruct (Qle_bool a b) eqn:E; [|reflexivity].
    apply Qle_bool_iff in E. exfalso. exact (Qlt_not_le _ _ H E).
Qed.

Lemma Qgt_bool_false a b : Qgt_bool a b = false <-> a <= b.
Proof.
  unfold Qgt_bool. rewrite negb_false_iff. apply Qle_bool_iff.
Qed.

(** ** The bracket search *)

Lemma last_where_gt_from xval a i :
  match last (where_gt_from xval a i) with
  | Some j =>
      exists k v, j = (i + k)%nat /\ a !! k = Some v /\ v < xval /\
        forall k' v', a !! k' = Some v' -> v' < xval -> (k' <= k)%nat
  | None => forall k v, a !! k = Some v -> xval <= v
  end.
Proof.
  revert i. induction a as [|v a IH]; intros i; simpl.
  - intros k v H. destruct k; discriminate.
  - specialize (IH (S i)).
    destruct (Qgt_bool xval v) eqn:E.
    + rewrite last_cons.
      destruct (last (where_gt_from xval a (S i))) as [j|].
      * destruct IH as (k & w & -> & Hk & Hw & Hmax).
        exists (S k), w. repeat split; [lia | exact Hk | exact Hw |].
        intros [|k'] v' Hk' Hv'; [lia|]. apply le_n_S. eapply Hmax; eauto.
      * exists 0%nat, v. repeat split; [lia | | ].
        -- now apply Qgt_bool_true.
        -- intros [|k'] v' Hk' Hv'; [lia|]. simpl in Hk'.
           exfalso. apply (Qlt_not_le _ _ Hv'). eapply IH; eauto.
    + destruct (last (where_gt_from xval a (S i))) as [j|].
      * destruct IH as (k & w & -> & Hk & Hw & Hmax).
        exists (S k), w. repeat split; [lia | exact Hk | exact Hw |].
        intros [|k'] v' Hk' Hv'; [lia|]. apply le_n_S. eapply Hmax; eauto.
      * intros [|k] w Hk; simpl in Hk.
        -- injection Hk as <-. now apply Qgt_bool_false.
        -- eapply IH; eauto.
Qed.

Lemma getlast_where_gt xval x0 a :
  Qle_bool xval x0 = false ->
  getlast (where_gt xval (x0 :: a)) = inr (bracket (x0 :: a) xval).
Proof.
  intros E. unfold getlast, bracket. rewrite E.
  unfold where_gt. simpl. unfold Qgt_bool. rewrite E. simpl.
  rewrite last_cons.
  now destruct (last (where_gt_from xval a 1)).
Qed.

(** The bracket index is the largest position of a knot below the query,
    and 0 for a query at or below the first knot. *)
Lemma bracket_spec x0 a xval :
  let x := x0 :: a in
  let j := bracket x xval in
  (xval <= x0 -> j = 0%nat) /\
  (x0 < xval ->
     exists v, x !! j = Some v /\ v < xval /\
       forall k w, x !! k = Some w -> w < xval -> (k <= j)%nat).
Proof.
  simpl. split.
  - intros H. apply Qle_bool_iff in H. now rewrite H.
  - intros H.
    destruct (Qle_bool xval x0) eqn:E.
    { apply Qle_bool_iff in E. exfalso. exact (Qlt_not_le _ _ H E). }
    pose proof (last_where_gt_from xval (x0 :: a) 0) as L.
    fold (where_gt xval (x0 :: a)) in L.
    destruct (last (where_gt xval (x0 :: a))) as [j|]; simpl.
    + destruct L as (k & v & -> & Hk & Hv & Hmax). simpl.
      exists v. auto.
    + exfalso. apply (Qlt_not_le _ _ H). apply (L 0%nat). reflexivity.
Qed.

Lemma bracket_lt_length x xval :
  x <> [] -> (bracket x xval < length x)%nat.
Proof.
  destruct x as [|x0 a]; [congruence|]. intros _.
  destruct (Qlt_le_dec x0 xval) as [H|H].
  - destruct (bracket_spec x0 a xval) as [_ B].
    destruct (B H) as (v & Hv & _). eapply lookup_lt_Some; eauto.
  - destruct (bracket_spec x0 a xval) as [B _]. rewrite (B H). simpl. lia.
Qed.

(** ** The locator loop *)

Lemma read_cells_written idxs : read_cells (map Some idxs) = inr idxs.
Proof.
  induction idxs as [|i idxs IH]; simpl; [reflexivity|]. now rewrite IH.
Qed.

Lemma getitem_in_range (x : list Q) i :
  (i < length x)%nat -> getitem x i = inr (nthQ x i).
Proof.
  intros H. unfold getitem, nthQ. rewrite nth_lookup.
  destruct (lookup_lt_is_Some_2 x i H) as [v ->]. reflexivity.
Qed.

Lemma take_idxs_in_range (x : list Q) idxs :
  Forall (fun i => (i < length x)%nat) idxs ->
  take_idxs x idxs = inr (map (nthQ x) idxs).
Proof.
  induction 1 as [|i idxs Hi _ IH]; simpl; [reflexivity|].
  rewrite (getitem_in_range _ _ Hi). simpl. now rewrite IH.
Qed.

Lemma setitem_idxs_next s pre rest v :
  _idxs s = Some (map Some pre ++ None :: rest) ->
  setitem_idxs (length pre) v s
  = (inr tt, set_idxs (Some (map Some (pre ++ [v]) ++ rest)) s).
Proof.
  intros H. unfold setitem_idxs, bind, getattr. rewrite H.
  assert (L : (length pre <? length (map Some pre ++ None :: rest))%nat = true).
  { apply Nat.ltb_lt. rewrite length_app, length_map. simpl. lia. }
  rewrite L. unfold modify. do 3 f_equal.
  rewrite insert_app_r_alt by (rewrite length_map; lia).
  rewrite length_map, Nat.sub_diag. simpl.
  rewrite map_app, <- app_assoc. reflexivity.
Qed.

(** A loop whose body writes [f xval] into cell [ii] fills the cells left
    empty, in order. *)
Lemma for_enumerate_fill (body : nat -> Q -> M unit) (f : Q -> nat) :
  (forall ii xval s, body ii xval s = setitem_idxs ii (f xval) s) ->
  forall l pre s,
    _idxs s = Some (map Some pre ++ empty (length l)) ->
    for_enumerate body (length pre) l s
    = (inr tt, set_idxs (Some (map Some (pre ++ map f l))) s).
Proof.
  intros Hbody. induction l as [|a l IH]; intros pre s H; simpl in *.
  - unfold ret. rewrite !app_nil_r in *. destruct s; simpl in *. now subst.
  - rewrite (bind_inr _ _ s tt
               (set_idxs (Some (map Some (pre ++ [f a]) ++ empty (length l))) s)).
    2:{ rewrite Hbody. now apply setitem_idxs_next. }
    replace (S (length pre)) with (length (pre ++ [f a])).
    2:{ rewrite length_app. simpl. lia. }
    rewrite IH by reflexivity.
    rewrite <- app_assoc. reflexivity.
Qed.

Lemma nearest_body_writes x_array ii xval s :
  x_array <> [] ->
  nearest_body x_array ii xval s
  = setitem_idxs ii (nearest_index x_array xval) s.
Proof.
  intros Hx. unfold nearest_body, nearest_index, argmin, bind, lift.
  destruct x_array as [|x0 a]; [congruence|]. reflexivity.
Qed.

Lemma bracket_body_writes x_array ii xval s :
  x_array <> [] ->
  bracket_body x_array ii xval s
  = setitem_idxs ii (bracket x_array xval) s.
Proof.
  intros Hx. destruct x_array as [|x0 a]; [congruence|].
  unfold bracket_body. unfold bind at 1. unfold lift at 1.
  change (getitem (x0 :: a) 0) with (@inr exn Q x0). cbv beta iota.
  destruct (Qle_bool xval x0) eqn:E.
  - unfold bracket. now rewrite E.
  - unfold bind, lift. now rewrite (getlast_where_gt _ _ _ E).
Qed.

Lemma offsets_written x x_values s idxs :
  _idxs s = Some (map Some idxs) ->
  Forall (fun i => (i < length x)%nat) idxs ->
  offsets x x_values s = (inr (sub1 x_values (map (nthQ x) idxs)), s).
Proof.
  intros H F. unfold offsets, bind, getattr, lift. rewrite H.
  rewrite read_cells_written, (take_idxs_in_range _ _ F). reflexivity.
Qed.

(** With at least one knot no step of the locator raises, and it leaves the
    instance as [located] says. *)
Lemma construct_cache_located x s :
  x_array s <> [] ->
  _construct_cache x s = (inr tt, located x s).
Proof.
  intros Hx. unfold _construct_cache.
  unfold bind at 1. unfold get at 1.
  set (xv := atleast_1d x).
  set (s1 := if (length xv =? 1)%nat then set_return_float true s else s).
  rewrite (bind_inr _ _ s tt s1).
  2:{ subst s1. destruct (length xv =? 1)%nat; reflexivity. }
  unfold bind at 1. unfold modify at 1.
  unfold bind at 1. unfold modify at 1.
  unfold bind at 1. unfold get at 1.
  set (s2 := set_idxs _ _).
  assert (K : _kind s2 = _kind s).
  { subst s2 s1. destruct (length xv =? 1)%nat; reflexivity. }
  rewrite K. unfold located. fold xv. fold s1.
  assert (E0 : _idxs s2 = Some (map Some [] ++ empty (length xv))) by reflexivity.
  destruct (_kind s =? "nearest")%string eqn:EK.
  - change 0%nat with (@length nat []).
    rewrite (for_enumerate_fill _ (nearest_index (x_array s))
               (fun ii xval s' => nearest_body_writes _ ii xval s' Hx) xv [] s2 E0).
    unfold locate. rewrite EK. reflexivity.
  - set (idxs := map (bracket (x_array s)) xv).
    rewrite (bind_inr _ _ s2 tt (set_idxs (Some (map Some idxs)) s2)).
    2:{ exact (for_enumerate_fill _ (bracket (x_array s))
                 (fun ii xval s' => bracket_body_writes _ ii xval s' Hx)
                 xv [] s2 E0). }
    set (s3 := set_idxs (Some (map Some idxs)) s2).
    assert (F : Forall (fun i => (i < length (x_array s))%nat) idxs).
    { subst idxs. apply Forall_map, Forall_forall. intros q _.
      now apply bracket_lt_length. }
    assert (O : offsets (x_array s) xv s3
                = (inr (sub1 xv (map (nthQ (x_array s)) idxs)), s3)).
    { now apply offsets_written. }
    rewrite (bind_inr _ _ _ _ _ O).
    unfold bind at 1. unfold get at 1.
    replace (_kind s3) with (_kind s) by (symmetry; exact K).
    unfold locate, powers. rewrite EK. fold idxs.
    destruct (_kind s =? "cubic")%string.
    + rewrite (bind_inr _ _ _ _ _ O). rewrite (bind_inr _ _ _ _ _ O).
      reflexivity.
    + reflexivity.
Qed.

(** ** The evaluator and the orchestrator *)

(** The instance after lines 182-184. *)
Lemma update_values_run y s :
  update_values y s = (inr tt, revalued y s).
Proof. destruct y; reflexivity. Qed.

(** The evaluator reads the instance and writes nothing. *)
Lemma call_nearest_pure s : snd (_call_nearest s) = s.
Proof. unfold _call_nearest. run_method. Qed.

Lemma call_linear_pure s : snd (_call_linear s) = s.
Proof. unfold _call_linear. run_method. Qed.

Lemma call_cubic_pure s : snd (_call_cubic s) = s.
Proof. unfold _call_cubic. run_method. Qed.

Lemma evaluate_kind_pure s : snd (evaluate_kind s) = s.
Proof.
  unfold evaluate_kind, bind, get.
  destruct (_kind s =? "cubic")%string; [apply call_cubic_pure|].
  destruct (_kind s =? "linear")%string; [apply call_linear_pure|].
  destruct (_kind s =? "nearest")%string; [apply call_nearest_pure|].
  reflexivity.
Qed.

Lemma unwrap_pure out s : snd (unwrap out s) = s.
Proof. unfold unwrap, bind, get, lift, ret. now destruct (return_float s). Qed.

Lemma evaluate_unwrap_pure s :
  snd ((do out <- evaluate_kind; unwrap out) s) = s.
Proof.
  unfold bind. pose proof (evaluate_kind_pure s) as H.
  destruct (evaluate_kind s) as [[e|out] s']; simpl in H; subst s'.
  - reflexivity.
  - apply unwrap_pure.
Qed.

(** [__call__] when the cache is valid and may be used: the query is not
    looked at. *)
Lemma call_cached x y s :
  _cached s = true ->
  __call__ x y true s
  = (do out <- evaluate_kind; unwrap out) (revalued y s).
Proof.
  intros H. unfold __call__.
  rewrite (bind_inr _ _ _ _ _ (update_values_run y s)).
  set (s1 := revalued y s).
  assert (C : _cached s1 = true) by (subst s1; now destruct y).
  unfold bind at 1. unfold get at 1. rewrite C. simpl.
  reflexivity.
Qed.

(** [__call__] when the locator runs. *)
Lemma call_rebuild x y use_cache s :
  x_array s <> [] ->
  _cached s && use_cache = false ->
  __call__ x y use_cache s
  = (do out <- evaluate_kind; unwrap out) (located x (revalued y s)).
Proof.
  intros Hx H. unfold __call__.
  rewrite (bind_inr _ _ _ _ _ (update_values_run y s)).
  set (s1 := revalued y s).
  assert (C : _cached s1 = _cached s) by (subst s1; now destruct y).
  assert (X : x_array s1 <> []) by (subst s1; now destruct y).
  unfold bind at 1. unfold get at 1. rewrite C, H. simpl.
  rewrite (bind_inr _ _ _ _ _ (construct_cache_located x s1 X)).
  reflexivity.
Qed.

(** ** Construction *)

Lemma init_allowed x y kind :
  In kind allowed_kinds -> __init__ x y kind = inr (constructed x y kind).
Proof.
  intros H. unfold __init__.
  assert (E : existsb (String.eqb kind) allowed_kinds = true).
  { apply existsb_exists. exists kind. split; [exact H | apply String.eqb_refl]. }
  rewrite E. reflexivity.
Qed.

Lemma init_refused x y kind :
  ~ In kind allowed_kinds -> __init__ x y kind = inl ValueError.
Proof.
  intros H. unfold __init__.
  destruct (existsb (String.eqb kind) allowed_kinds) eqn:E; [|reflexivity].
  apply existsb_exists in E. destruct E as (k & Hk & Ek).
  apply String.eqb_eq in Ek. subst k. contradiction.
Qed.

(** ** Cache correctness *)

Lemma located_cached x s : _cached (located x s) = true.
Proof.
  unfold located.
  destruct (_kind s =? "nearest")%string; reflexivity.
Qed.

Lemma located_x_array x s : x_array (located x s) = x_array s.
Proof.
  unfold located.
  destruct (_kind s =? "nearest")%string,
    (length (atleast_1d x) =? 1)%nat; reflexivity.
Qed.

Lemma revalued_located_constructed x V1 V2 kind Q :
  kind = "linear"%string \/ kind = "cubic"%string ->
  revalued (Some V2) (located Q (constructed x V1 kind))
  = located Q (constructed x V2 kind).
Proof.
  intros [-> | ->]; unfold located, revalued, constructed; simpl;
    destruct (length (atleast_1d Q) =? 1)%nat; reflexivity.
Qed.

(** C1 (cache correctness).  For kind "linear" or "cubic" and at least one
    knot: evaluating [Q] with the cache on, then evaluating [Q] again with
    the new value array [V2] and the cache on, gives the result (outputs, or
    the exception) of a fresh interpolant constructed with [V2] and evaluated
    at [Q] with the cache off; the second call leaves the bracket indices and
    the offset powers of the first one in place. *)
Theorem cache_correctness x V1 V2 kind Q :
  kind = "linear"%string \/ kind = "cubic"%string ->
  x <> [] ->
  exists s0 sF,
    __init__ x V1 kind = inr s0 /\
    __init__ x V2 kind = inr sF /\
    let s1 := snd (__call__ Q None true s0) in
    let r2 := __call__ Q (Some V2) true s1 in
    fst r2 = fst (__call__ Q None false sF) /\
    _idxs (snd r2) = _idxs s1 /\ _diffs (snd r2) = _diffs s1.
Proof.
  intros K Hx.
  assert (A : In kind allowed_kinds).
  { destruct K as [-> | ->]; simpl; auto. }
  exists (constructed x V1 kind), (constructed x V2 kind).
  split; [now apply init_allowed|]. split; [now apply init_allowed|].
  cbv zeta.
  rewrite (call_rebuild Q None true (constructed x V1 kind)) by (try reflexivity; exact Hx).
  rewrite evaluate_unwrap_pure.
  change (revalued None (constructed x V1 kind)) with (constructed x V1 kind).
  rewrite (call_cached Q (Some V2)) by apply located_cached.
  rewrite (revalued_located_constructed _ _ _ _ _ K).
  rewrite (call_rebuild Q None false (constructed x V2 kind))
    by (try reflexivity; exact Hx).
  change (revalued None (constructed x V2 kind)) with (constructed x V2 kind).
  rewrite evaluate_unwrap_pure.
  rewrite <- (revalued_located_constructed x V1 V2 kind Q K).
  split; [reflexivity|]. split; reflexivity.
Qed.

Lemma cache_correctness_witness :
  exists s0 sF,
    __init__ [0; 1; 2; 3] (Real [0; 1; 0; 1]) "linear" = inr s0 /\
    __init__ [0; 1; 2; 3] (Real [1; 0; 1; 0]) "linear" = inr sF /\
    let s1 := snd (__call__ (QArray [1 # 2; 5 # 2]) None true s0) in
    let r2 := __call__ (QArray [1 # 2; 5 # 2]) (Some (Real [1; 0; 1; 0])) true s1 in
    fst r2 = fst (__call__ (QArray [1 # 2; 5 # 2]) None false sF) /\
    _idxs (snd r2) = _idxs s1 /\ _diffs (snd r2) = _diffs s1.
Proof.
  apply (cache_correctness [0; 1; 2; 3] (Real [0; 1; 0; 1]) (Real [1; 0; 1; 0])
           "linear" (QArray [1 # 2; 5 # 2])).
  - left. reflexivity.
  - discriminate.
Defined.

(** ** A query that differs from the cached one *)

Lemma located_idxs x s :
  _idxs (located x s)
  = Some (map Some (locate (_kind s) (x_array s) (atleast_1d x))).
Proof.
  unfold located. destruct (_kind s =? "nearest")%string; reflexivity.
Qed.

Lemma revalued_kind y s : _kind (revalued y s) = _kind s.
Proof. now destruct y. Qed.

Lemma revalued_x_array y s : x_array (revalued y s) = x_array s.
Proof. now destruct y. Qed.

Lemma revalued_idxs y s : _idxs (revalued y s) = _idxs s.
Proof. now destruct y. Qed.

Lemma revalued_diffs y s : _diffs (revalued y s) = _diffs s.
Proof. now destruct y. Qed.

Lemma revalued_cached y s : _cached (revalued y s) = _cached s.
Proof. now destruct y. Qed.

Lemma revalued_return_float y s : return_float (revalued y s) = return_float s.
Proof. now destruct y. Qed.

(** C2, as stated, fails: with the cache built from [0.5, 1.5], a call with
    the different query [2.5, 0.5] and the cache on returns the values at
    0.5 and 1.5 again (5 and 15 for the line through (0,0) and (1,10)), not
    the values 25 and 5 at the new points, and the bracket indices are those
    of the first query. *)
Lemma stale_query_counterexample :
  exists s0,
    __init__ [0; 1; 2; 3] (Real [0; 10; 20; 30]) "linear" = inr s0 /\
    let s1 := snd (__call__ (QArray [1 # 2; 3 # 2]) None true s0) in
    let r2 := __call__ (QArray [5 # 2; 1 # 2]) None true s1 in
    fst r2 = inr (Out1 (Real [10 # 2; 30 # 2])) /\
    fst r2 = fst (__call__ (QArray [1 # 2; 3 # 2]) None true s0) /\
    fst r2 <> fst (__call__ (QArray [5 # 2; 1 # 2]) None false s1) /\
    fst (__call__ (QArray [5 # 2; 1 # 2]) None false s1)
      = inr (Out1 (Real [50 # 2; 10 # 2])) /\
    _idxs (snd r2) = Some [Some 0%nat; Some 1%nat] /\
    _idxs (snd (__call__ (QArray [5 # 2; 1 # 2]) None false s1))
      = Some [Some 2%nat; Some 0%nat].
Proof.
  eexists. split; [reflexivity|]. vm_compute. repeat split. discriminate.
Qed.

(** C2, amended.  [__call__] never compares its query with the cached one.
    On an instance whose cache is valid, a call with the cache on returns
    what it returns for any other query, and leaves the bracket indices and
    the offset powers as they are; the locator runs, and writes the indices
    of the query at hand, exactly when the cache is not valid or the caller
    passes [use_cache=False]. *)
Theorem query_ignored_when_cached s Q1 Q2 y use_cache :
  (_cached s = true ->
     __call__ Q2 y true s = __call__ Q1 y true s /\
     _idxs (snd (__call__ Q2 y true s)) = _idxs s /\
     _diffs (snd (__call__ Q2 y true s)) = _diffs s) /\
  (x_array s <> [] -> _cached s && use_cache = false ->
     _idxs (snd (__call__ Q2 y use_cache s))
     = Some (map Some (locate (_kind s) (x_array s) (atleast_1d Q2)))).
Proof.
  split.
  - intros C. rewrite !(call_cached _ y s C).
    rewrite evaluate_unwrap_pure, revalued_idxs, revalued_diffs. auto.
  - intros Hx C. rewrite (call_rebuild _ _ _ _ Hx C).
    rewrite evaluate_unwrap_pure, located_idxs.
    now rewrite revalued_kind, revalued_x_array.
Qed.

Lemma query_ignored_when_cached_witness :
  let s := located (QArray [1 # 2; 3 # 2])
             (constructed [0; 1; 2; 3] (Real [0; 10; 20; 30]) "linear") in
  let Q1 := QArray [1 # 2; 3 # 2] in
  let Q2 := QArray [5 # 2; 1 # 2] in
  (__call__ Q2 None true s = __call__ Q1 None true s /\
   _idxs (snd (__call__ Q2 None true s)) = _idxs s /\
   _diffs (snd (__call__ Q2 None true s)) = _diffs s) /\
  _idxs (snd (__call__ Q2 None false s))
  = Some (map Some (locate (_kind s) (x_array s) (atleast_1d Q2))).
Proof.
  intros s Q1 Q2.
  destruct (query_ignored_when_cached s Q1 Q2 None false) as [A B].
  split.
  - apply A. reflexivity.
  - apply B; [discriminate | reflexivity].
Defined.

(** ** The locator's indices *)

Lemma increasing_lt x :
  increasing x = true ->
  forall i j, (i < j < length x)%nat -> nthQ x i < nthQ x j.
Proof.
  induction x as [|a x IH]; intros H i j Hij; [simpl in Hij; lia|].
  destruct x as [|b x]; [simpl in Hij; lia|].
  change (Qgt_bool b a && increasing (b :: x) = true) in H.
  apply andb_true_iff in H. destruct H as [Hab Hx].
  apply Qgt_bool_true in Hab.
  destruct j as [|j]; [lia|].
  destruct i as [|i].
  - change (a < nthQ (b :: x) j).
    destruct j as [|j]; [exact Hab|].
    apply Qlt_trans with b; [exact Hab|].
    apply (IH Hx 0%nat (S j)). simpl in *. lia.
  - change (nthQ (b :: x) i < nthQ (b :: x) j).
    apply (IH Hx). simpl in *. lia.
Qed.

Lemma lookup_nthQ (x : list Q) k v : x !! k = Some v -> nthQ x k = v.
Proof. intros H. unfold nthQ. rewrite nth_lookup, H. reflexivity. Qed.

Lemma nthQ_lookup (x : list Q) k : (k < length x)%nat -> x !! k = Some (nthQ x k).
Proof.
  intros H. destruct (lookup_lt_is_Some_2 x k H) as [v Hv].
  now rewrite (lookup_nthQ _ _ _ Hv).
Qed.

(** C4, as stated, fails in its last part: over the knots 0, 1, 2 the query 1,
    which is the interior knot of index 1, gets the bracket index 0 (the
    interval that ends at that knot), not the index 1 of the interval that
    starts there. *)
Lemma interior_knot_counterexample :
  exists s,
    __init__ [0; 1; 2] (Real [0; 1; 0]) "linear" = inr s /\
    nthQ (x_array s) 1 = 1 /\
    _idxs (snd (_construct_cache (QArray [1]) s)) = Some [Some 0%nat] /\
    _idxs (snd (_construct_cache (QArray [1]) s)) <> Some [Some 1%nat].
Proof.
  eexists. split; [reflexivity|]. vm_compute. repeat split. discriminate.
Qed.

(** C4, amended.  For kind "linear" or "cubic" and at least one knot, the
    locator raises nothing and writes for the query point of position [i] the
    index [j] with: [j = 0] when the query is at or below knots[0]; otherwise
    [j] is the largest position of a knot strictly below the query.  With
    strictly increasing knots, a query equal to the knot of index [k >= 1]
    gets [k - 1], the index of the interval that ends at that knot (the
    bracketing is left-continuous). *)
Theorem bracket_index_of_query s x i q :
  _kind s = "linear"%string \/ _kind s = "cubic"%string ->
  x_array s <> [] ->
  atleast_1d x !! i = Some q ->
  let knots := x_array s in
  let r := _construct_cache x s in
  fst r = inr tt /\
  exists j cells,
    _idxs (snd r) = Some cells /\
    length cells = length (atleast_1d x) /\
    cells !! i = Some (Some j) /\
    (q <= nthQ knots 0 -> j = 0%nat) /\
    (nthQ knots 0 < q ->
       (j < length knots)%nat /\ nthQ knots j < q /\
       forall k, (k < length knots)%nat -> nthQ knots k < q -> (k <= j)%nat) /\
    (increasing knots = true ->
       forall k, (0 < k < length knots)%nat -> q == nthQ knots k ->
       j = (k - 1)%nat).
Proof.
  intros K Hx Hq. cbv zeta.
  rewrite (construct_cache_located x s Hx). simpl fst. simpl snd.
  split; [reflexivity|].
  rewrite located_idxs.
  assert (L : locate (_kind s) (x_array s) (atleast_1d x)
              = map (bracket (x_array s)) (atleast_1d x)).
  { unfold locate. now destruct K as [-> | ->]. }
  rewrite L.
  exists (bracket (x_array s) q), (map Some (map (bracket (x_array s)) (atleast_1d x))).
  split; [reflexivity|]. split; [now rewrite !length_map|].
  split; [now rewrite !list_lookup_fmap, Hq|].
  destruct (x_array s) as [|x0 a] eqn:Ex; [congruence|].
  destruct (bracket_spec x0 a q) as [B0 B1].
  assert (B1' : x0 < q ->
            (bracket (x0 :: a) q < length (x0 :: a))%nat /\
            nthQ (x0 :: a) (bracket (x0 :: a) q) < q /\
            forall k, (k < length (x0 :: a))%nat -> nthQ (x0 :: a) k < q ->
                      (k <= bracket (x0 :: a) q)%nat).
  { intros H. destruct (B1 H) as (v & Hv & Hvq & Hmax).
    split; [eapply lookup_lt_Some; eauto|].
    split; [now rewrite (lookup_nthQ _ _ _ Hv)|].
    intros k Hk Hkq. eapply Hmax; [apply nthQ_lookup; exact Hk | exact Hkq]. }
  split; [exact B0|]. split; [exact B1'|].
  intros Hinc k Hk Hqk.
  assert (H0 : x0 < q).
  { rewrite Hqk. apply (increasing_lt _ Hinc 0%nat k). lia. }
  destruct (B1' H0) as (Hj & Hjq & Hmax).
  assert (Hlow : (k - 1 <= bracket (x0 :: a) q)%nat).
  { apply Hmax; [lia|]. rewrite Hqk. apply (increasing_lt _ Hinc). lia. }
  assert (Hup : (bracket (x0 :: a) q < k)%nat).
  { destruct (Nat.lt_ge_cases (bracket (x0 :: a) q) k) as [H|H]; [exact H|].
    exfalso.
    assert (Hjk : nthQ (x0 :: a) (bracket (x0 :: a) q) < nthQ (x0 :: a) k)
      by (rewrite <- Hqk; exact Hjq).
    clear Hjq. rename Hjk into Hjq.
    destruct (Nat.eq_dec k (bracket (x0 :: a) q)) as [E | Hne].
    - rewrite <- E in Hjq. exact (Qlt_irrefl _ Hjq).
    - apply (Qlt_irrefl (nthQ (x0 :: a) k)).
      apply Qlt_trans with (nthQ (x0 :: a) (bracket (x0 :: a) q)); [|exact Hjq].
      apply (increasing_lt _ Hinc). lia. }
  lia.
Qed.

Lemma bracket_index_of_query_witness :
  let s := constructed [0; 1; 2; 3] (Real [0; 1; 0; 1]) "cubic" in
  let x := QArray [1 # 2; 2] in
  let r := _construct_cache x s in
  fst r = inr tt /\
  exists j cells,
    _idxs (snd r) = Some cells /\
    length cells = length (atleast_1d x) /\
    cells !! 1%nat = Some (Some j) /\
    (2 <= nthQ [0; 1; 2; 3] 0 -> j = 0%nat) /\
    (nthQ [0; 1; 2; 3] 0 < 2 ->
       (j < length [0; 1; 2; 3])%nat /\ nthQ [0; 1; 2; 3] j < 2 /\
       forall k, (k < length [0; 1; 2; 3])%nat -> nthQ [0; 1; 2; 3] k < 2 ->
                 (k <= j)%nat) /\
    (increasing [0; 1; 2; 3] = true ->
       forall k, (0 < k < length [0; 1; 2; 3])%nat -> 2 == nthQ [0; 1; 2; 3] k ->
       j = (k - 1)%nat).
Proof.
  intros s x.
  apply (bracket_index_of_query s x 1%nat 2).
  - right. reflexivity.
  - discriminate.
  - reflexivity.
Defined.

(** [argmin_from] returns either the running best index, when no later entry
    is strictly smaller, or the first position of the smallest later entry. *)
Lemma argmin_from_spec l : forall i best bv,
  let r := argmin_from l i best bv in
  (r = best /\ forall k v, l !! k = Some v -> bv <= v) \/
  (exists k v, r = (i + k)%nat /\ l !! k = Some v /\ v < bv /\
     (forall k' v', l !! k' = Some v' -> v <= v') /\
     (forall k' v', (k' < k)%nat -> l !! k' = Some v' -> v < v')).
Proof.
  induction l as [|v l IH]; intros i best bv; simpl.
  - left. split; [reflexivity|]. intros k w H. destruct k; discriminate.
  - destruct (Qgt_bool bv v) eqn:E.
    + apply Qgt_bool_true in E. right.
      destruct (IH (S i) i v) as [[-> Hall] | (k & w & -> & Hk & Hw & Hall & Hbefore)].
      * exists 0%nat, v. repeat split; [lia | exact E | | ].
        -- intros [|k'] v' Hk'; simpl in Hk'.
           ++ injection Hk' as <-. apply Qle_refl.
           ++ eapply Hall; eauto.
        -- intros k' v' Hlt. lia.
      * exists (S k), w. repeat split; [lia | exact Hk | | | ].
        -- now apply Qlt_trans with v.
        -- intros [|k'] v' Hk'; simpl in Hk'.
           ++ injection Hk' as <-. now apply Qlt_le_weak.
           ++ eapply Hall; eauto.
        -- intros [|k'] v' Hlt Hk'; simpl in Hk'.
           ++ now injection Hk' as <-.
           ++ eapply Hbefore; [|exact Hk']. lia.
    + apply Qgt_bool_false in E.
      destruct (IH (S i) best bv) as [[-> Hall] | (k & w & -> & Hk & Hw & Hall & Hbefore)].
      * left. split; [reflexivity|].
        intros [|k'] v' Hk'; simpl in Hk'.
        -- now injection Hk' as <-.
        -- eapply Hall; eauto.
      * right. exists (S k), w. repeat split; [lia | exact Hk | exact Hw | | ].
        -- intros [|k'] v' Hk'; simpl in Hk'.
           ++ injection Hk' as <-. apply Qlt_le_weak.
              now apply Qlt_le_trans with bv.
           ++ eapply Hall; eauto.
        -- intros [|k'] v' Hlt Hk'; simpl in Hk'.
           ++ injection Hk' as <-. now apply Qlt_le_trans with bv.
           ++ eapply Hbefore; [|exact Hk']. lia.
Qed.

(** The index of the first minimum of a non-empty list. *)
Lemma argmin_first_minimum d0 l :
  let ds := d0 :: l in
  let r := argmin_from l 1 0 d0 in
  exists w, ds !! r = Some w /\
    (forall k v, ds !! k = Some v -> w <= v) /\
    (forall k v, (k < r)%nat -> ds !! k = Some v -> w < v).
Proof.
  cbv zeta.
  destruct (argmin_from_spec l 1 0 d0)
    as [[-> Hall] | (k & w & -> & Hk & Hw & Hall & Hbefore)].
  - exists d0. repeat split.
    + intros [|k] v Hk; simpl in Hk.
      * injection Hk as <-. apply Qle_refl.
      * eapply Hall; eauto.
    + intros k v Hlt. lia.
  - exists w. repeat split; [exact Hk | | ].
    + intros [|k'] v Hk'; simpl in Hk'.
      * injection Hk' as <-. now apply Qlt_le_weak.
      * eapply Hall; eauto.
    + intros [|k'] v Hlt Hk'; simpl in Hk'.
      * now injection Hk' as <-.
      * eapply Hbefore; [|exact Hk']. lia.
Qed.

Lemma nearest_index_spec x q :
  x <> [] ->
  let j := nearest_index x q in
  (j < length x)%nat /\
  (forall k, (k < length x)%nat ->
     Qabs (float64 (q - nthQ x j)) <= Qabs (float64 (q - nthQ x k))) /\
  (forall k, (k < j)%nat ->
     Qabs (float64 (q - nthQ x j)) < Qabs (float64 (q - nthQ x k))).
Proof.
  intros Hx. cbv zeta. unfold nearest_index.
  destruct x as [|x0 a]; [congruence|]. clear Hx.
  set (f := fun xk : Q => Qabs (float64 (q - xk))).
  change (map f (x0 :: a)) with (f x0 :: map f a).
  destruct (argmin_first_minimum (f x0) (map f a)) as (w & Hw & Hall & Hbefore).
  change (f x0 :: map f a) with (map f (x0 :: a)) in *.
  set (j := argmin_from (map f a) 1 0 (f x0)) in *.
  assert (Hj : (j < length (x0 :: a))%nat).
  { apply lookup_lt_Some in Hw. now rewrite length_map in Hw. }
  assert (Ew : w = f (nthQ (x0 :: a) j)).
  { rewrite list_lookup_fmap, (nthQ_lookup _ _ Hj) in Hw. simpl in Hw. congruence. }
  subst w. split; [exact Hj|]. split.
  - intros k Hk. apply (Hall k).
    now rewrite list_lookup_fmap, (nthQ_lookup _ _ Hk).
  - intros k Hk. apply (Hbefore k); [exact Hk|].
    rewrite list_lookup_fmap, nthQ_lookup by lia. reflexivity.
Qed.

(** C5, as stated, fails: over the knots -1 and 2^54 the query 2^53 lies at
    the distance 2^53 + 1 from the first knot and 2^53 from the second, so
    the second knot is strictly the nearer one; the float64 difference
    2^53 - (-1) rounds to 2^53, the two computed distances are equal, and the
    locator writes the index 0.  The three numbers are floats. *)
Lemma rounded_distance_counterexample :
  let k0 := -1 in
  let k1 := inject_Z (2 ^ 54) in
  let q := inject_Z (2 ^ 53) in
  exists s,
    __init__ [k0; k1] (Real [0; 1]) "nearest" = inr s /\
    float64 k0 == k0 /\ float64 k1 == k1 /\ float64 q == q /\
    _idxs (snd (_construct_cache (QArray [q]) s)) = Some [Some 0%nat] /\
    Qabs (q - k1) < Qabs (q - k0) /\
    Qabs (float64 (q - k0)) == Qabs (float64 (q - k1)).
Proof.
  eexists. split; [reflexivity|]. vm_compute. repeat split; discriminate.
Qed.

(** C5, amended.  For kind "nearest" and at least one knot, the locator raises
    nothing and writes for the query point [q] of position [i] an index [j]
    that minimises the distance as line 152 computes it, the magnitude of the
    float64 difference of [q] and the knot; every knot of a lower index has a
    strictly larger computed distance, so of knots at equal computed distance
    the lowest index is taken.  When no difference is rounded, [j] is the
    index of a knot at the least true distance, and every knot of a lower
    index is strictly farther. *)
Theorem nearest_index_of_query s x i q :
  _kind s = "nearest"%string ->
  x_array s <> [] ->
  atleast_1d x !! i = Some q ->
  let knots := x_array s in
  let r := _construct_cache x s in
  fst r = inr tt /\
  exists j cells,
    _idxs (snd r) = Some cells /\
    length cells = length (atleast_1d x) /\
    cells !! i = Some (Some j) /\
    (j < length knots)%nat /\
    (forall k, (k < length knots)%nat ->
       Qabs (float64 (q - nthQ knots j)) <= Qabs (float64 (q - nthQ knots k))) /\
    (forall k, (k < j)%nat ->
       Qabs (float64 (q - nthQ knots j)) < Qabs (float64 (q - nthQ knots k))) /\
    ((forall k, (k < length knots)%nat ->
        float64 (q - nthQ knots k) == q - nthQ knots k) ->
     (forall k, (k < length knots)%nat ->
        Qabs (q - nthQ knots j) <= Qabs (q - nthQ knots k)) /\
     (forall k, (k < j)%nat ->
        Qabs (q - nthQ knots j) < Qabs (q - nthQ knots k))).
Proof.
  intros K Hx Hq. cbv zeta.
  rewrite (construct_cache_located x s Hx). simpl fst. simpl snd.
  split; [reflexivity|].
  rewrite located_idxs. unfold locate. rewrite K. simpl.
  exists (nearest_index (x_array s) q),
    (map Some (map (nearest_index (x_array s)) (atleast_1d x))).
  split; [reflexivity|]. split; [now rewrite !length_map|].
  split; [now rewrite !list_lookup_fmap, Hq|].
  destruct (nearest_index_spec (x_array s) q Hx) as (Hj & Hmin & Hlow).
  split; [exact Hj|]. split; [exact Hmin|]. split; [exact Hlow|].
  intros E.
  pose proof (Qabs_wd _ _ (E _ Hj)) as Ej.
  split.
  - intros k Hk. pose proof (Qabs_wd _ _ (E k Hk)) as Ek.
    apply (proj1 (Qle_comp _ _ Ej _ _ Ek)). now apply Hmin.
  - intros k Hk.
    assert (Hk' : (k < length (x_array s))%nat) by lia.
    pose proof (Qabs_wd _ _ (E k Hk')) as Ek.
    apply (proj1 (Qlt_compat _ _ Ej _ _ Ek)). now apply Hlow.
Qed.

Lemma nearest_index_of_query_witness :
  let s := constructed [0; 1; 2] (Real [0; 1; 0]) "nearest" in
  let x := QArray [1 # 4; 1 # 2] in
  let q := 1 # 2 in
  let r := _construct_cache x s in
  fst r = inr tt /\
  exists j cells,
    _idxs (snd r) = Some cells /\
    length cells = length (atleast_1d x) /\
    cells !! 1%nat = Some (Some j) /\
    (j < length [0; 1; 2])%nat /\
    (forall k, (k < length [0; 1; 2])%nat ->
       Qabs (float64 (q - nthQ [0; 1; 2] j))
       <= Qabs (float64 (q - nthQ [0; 1; 2] k))) /\
    (forall k, (k < j)%nat ->
       Qabs (float64 (q - nthQ [0; 1; 2] j))
       < Qabs (float64 (q - nthQ [0; 1; 2] k))) /\
    ((forall k, (k < length [0; 1; 2])%nat ->
        float64 (q - nthQ [0; 1; 2] k) == q - nthQ [0; 1; 2] k) ->
     (forall k, (k < length [0; 1; 2])%nat ->
        Qabs (q - nthQ [0; 1; 2] j) <= Qabs (q - nthQ [0; 1; 2] k)) /\
     (forall k, (k < j)%nat ->
        Qabs (q - nthQ [0; 1; 2] j) < Qabs (q - nthQ [0; 1; 2] k))).
Proof.
  intros s x q.
  apply (nearest_index_of_query s x 1%nat q).
  - reflexivity.
  - discriminate.
  - reflexivity.
Defined.

(** The differences of the query 1/2 and the knots 0, 1, 2 are floats, so the
    index written for it is that of a knot at the least true distance. *)
Example nearest_exact_differences :
  forall k, (k < 3)%nat ->
    float64 ((1 # 2) - nthQ [0; 1; 2] k) == (1 # 2) - nthQ [0; 1; 2] k.
Proof.
  intros k Hk. destruct k as [|[|[|k]]]; [reflexivity..|lia].
Qed.

(** A query half-way between the knots 0 and 1 gets the index 0. *)
Example nearest_tie_lower_index :
  _idxs (snd (_construct_cache (QArray [1 # 2; 3 # 2])
                (constructed [0; 1; 2] (Real [0; 1; 0]) "nearest")))
  = Some [Some 0%nat; Some 1%nat].
Proof. reflexivity. Qed.

(** ** The shape of the outputs *)

Lemma take_idxs_length {A} (a : list A) idxs r :
  take_idxs a idxs = inr r -> length r = length idxs.
Proof.
  revert r. induction idxs as [|i idxs IH]; intros r H; simpl in H.
  - now injection H as <-.
  - destruct (getitem a i); [discriminate|]. simpl in H.
    destruct (take_idxs a idxs) as [|vs]; [discriminate|]. simpl in H.
    injection H as <-. simpl. now rewrite (IH vs eq_refl).
Qed.

Lemma take_cols_shape {A} (a : list (list A)) idxs r :
  take_cols a idxs = inr r ->
  length r = length a /\ Forall (fun row => length row = length idxs) r.
Proof.
  revert r. induction a as [|row a IH]; intros r H; simpl in H.
  - injection H as <-. split; [reflexivity | constructor].
  - destruct (take_idxs row idxs) as [|v] eqn:E; [discriminate|]. simpl in H.
    destruct (take_cols a idxs) as [|vs] eqn:E'; [discriminate|]. simpl in H.
    injection H as <-. destruct (IH vs eq_refl) as [L F].
    split; [simpl; now rewrite L|].
    constructor; [now apply take_idxs_length in E | exact F].
Qed.

Lemma bcast_to_same {A} (l : list A) : bcast_to (length l) l = l.
Proof. destruct l as [|a [|b l]]; reflexivity. Qed.

Lemma mul1_same_length a b :
  length a = length b -> mul1 a b = inr (zip_with Qmult a b).
Proof.
  intros H. unfold mul1, bcast_len. rewrite H, Nat.eqb_refl.
  rewrite bcast_to_same. rewrite <- H. now rewrite bcast_to_same.
Qed.

Lemma mul_rows_shape n a b r :
  Forall (fun row => length row = n) a ->
  Forall (fun row => length row = n) b ->
  mul_rows a b = inr r ->
  length r = Nat.min (length a) (length b) /\
  Forall (fun row => length row = n) r.
Proof.
  intros Fa. revert b r. induction Fa as [|ra a Hra Fa IH]; intros b r Fb H.
  - simpl in H. injection H as <-. split; [reflexivity | constructor].
  - destruct Fb as [|rb b Hrb Fb].
    + simpl in H. injection H as <-. split; [reflexivity | constructor].
    + simpl in H. rewrite mul1_same_length in H by congruence. simpl in H.
      destruct (mul_rows a b) as [|rs] eqn:E; [discriminate|]. simpl in H.
      injection H as <-. destruct (IH b rs Fb E) as [L F].
      split; [simpl; now rewrite L|].
      constructor; [|exact F].
      rewrite length_zip_with. lia.
Qed.

Lemma Forall_bcast_to {A} (P : A -> Prop) n (l : list A) :
  Forall P l -> Forall P (bcast_to n l).
Proof.
  intros F. destruct l as [|a [|b l]]; simpl; try exact F.
  inversion_clear F. clear -H. induction n; simpl; constructor; auto.
Qed.

Lemma length_bcast_to {A} n m (l : list A) :
  bcast_len (length l) m = Some n -> (2 <= m)%nat ->
  length (bcast_to n l) = n.
Proof.
  unfold bcast_len. intros H Hm.
  destruct (length l =? m)%nat eqn:E1.
  { injection H as <-. now rewrite bcast_to_same. }
  destruct (length l =? 1)%nat eqn:E2.
  { injection H as <-. apply Nat.eqb_eq in E2.
    destruct l as [|a [|b l]]; try discriminate. simpl. apply repeat_length. }
  destruct (m =? 1)%nat eqn:E3; [|discriminate].
  apply Nat.eqb_eq in E3. lia.
Qed.

(** The product of the selected columns with a power table of at least two
    rows has at least one row, and its rows have the length of the two
    factors' rows. *)
Lemma mul2_shape n a b r :
  Forall (fun row => length row = n) a ->
  Forall (fun row => length row = n) b ->
  (2 <= length b)%nat ->
  mul2 a b = inr r ->
  r <> [] /\ Forall (fun row => length row = n) r.
Proof.
  intros Fa Fb Hb H. unfold mul2 in H.
  destruct (bcast_len (length a) (length b)) as [k|] eqn:E; [|discriminate].
  destruct (mul_rows_shape n _ _ r (Forall_bcast_to _ k a Fa)
              (Forall_bcast_to _ k b Fb) H) as [L F].
  split; [|exact F].
  rewrite (length_bcast_to k (length b) a E Hb) in L.
  assert (Lb : length (bcast_to k b) = k).
  { unfold bcast_len in E.
    destruct (length a =? length b)%nat eqn:E1.
    - injection E as <-. apply Nat.eqb_eq in E1. rewrite E1. now rewrite bcast_to_same.
    - destruct (length a =? 1)%nat.
      + injection E as <-. now rewrite bcast_to_same.
      + destruct (length b =? 1)%nat eqn:E3; [|discriminate].
        apply Nat.eqb_eq in E3. lia. }
  rewrite Lb in L.
  assert (Hk : (2 <= k)%nat \/ k = length b).
  { unfold bcast_len in E.
    destruct (length a =? length b)%nat eqn:E1.
    - injection E as <-. apply Nat.eqb_eq in E1. right. exact E1.
    - destruct (length a =? 1)%nat.
      + injection E as <-. now right.
      + destruct (length b =? 1)%nat eqn:E3; [|discriminate].
        apply Nat.eqb_eq in E3. lia. }
  intros ->. simpl in L. lia.
Qed.

Lemma sum_axis0_length n r :
  r <> [] -> Forall (fun row => length row = n) r ->
  length (sum_axis0 r) = n.
Proof.
  intros Hr F. destruct r as [|r0 rs]; [congruence|]. clear Hr. simpl.
  inversion_clear F as [|? ? H0 Frs]. revert r0 H0.
  induction Frs as [|r1 rs H1 Frs IH]; intros r0 H0; simpl; [exact H0|].
  apply IH. rewrite length_zip_with. lia.
Qed.

Lemma dmap_err_inr {A B} (f : A -> result B) d d' :
  dmap_err f d = inr d' ->
  (exists a b, d = Real a /\ d' = Real b /\ f a = inr b) \/
  (exists re im re' im',
     d = Complex re im /\ d' = Complex re' im' /\
     f re = inr re' /\ f im = inr im').
Proof.
  destruct d as [a | re im]; simpl; intros H.
  - left. destruct (f a) as [|b] eqn:E; [discriminate|]. simpl in H.
    injection H as <-. eauto.
  - right. destruct (f re) as [|re'] eqn:E1; [discriminate|]. simpl in H.
    destruct (f im) as [|im'] eqn:E2; [discriminate|]. simpl in H.
    injection H as <-. eauto 10.
Qed.

Lemma dmap_err_dall {A B} (f : A -> result B) (P : B -> Prop) d d' :
  (forall a b, f a = inr b -> P b) ->
  dmap_err f d = inr d' -> dall P d'.
Proof.
  intros HP H.
  destruct (dmap_err_inr f d d' H)
    as [(a & b & -> & -> & E) | (re & im & re' & im' & -> & -> & E1 & E2)];
    simpl; eauto.
Qed.

Lemma call_linear_shape s idxs diffs out :
  _idxs s = Some (map Some idxs) ->
  _diffs s = Some diffs ->
  Forall (fun row => length row = length idxs) diffs ->
  (2 <= length diffs)%nat ->
  fst (_call_linear s) = inr out ->
  is_sequence (length idxs) out.
Proof.
  intros Hi Hd F L. unfold _call_linear, bind, get, getattr, lift, raise, ret.
  rewrite Hi.
  destruct (_data s) as [[v|m]|]; simpl; try discriminate.
  rewrite read_cells_written. simpl.
  destruct (dmap_err (fun a => take_cols a idxs) m) as [|cols] eqn:E1;
    simpl; [discriminate|].
  rewrite Hd.
  destruct (dmap_err (fun a => mul2 a diffs) cols) as [|prod] eqn:E2;
    simpl; [discriminate|].
  intros H. injection H as <-. simpl.
  assert (C : dall (Forall (fun row => length row = length idxs)) cols).
  { eapply dmap_err_dall; [|exact E1]. intros a b Hab.
    now destruct (take_cols_shape _ _ _ Hab). }
  destruct (dmap_err_inr _ _ _ E2)
    as [(a & b & -> & -> & E) | (re & im & re' & im' & -> & -> & Ea & Eb)];
    simpl in *.
  - destruct (mul2_shape _ _ _ _ C F L E). now apply sum_axis0_length.
  - destruct C as [Cr Ci].
    destruct (mul2_shape _ _ _ _ Cr F L Ea).
    destruct (mul2_shape _ _ _ _ Ci F L Eb).
    split; now apply sum_axis0_length.
Qed.

Lemma call_nearest_shape s idxs v out :
  _idxs s = Some (map Some idxs) ->
  _data s = Some (T1 v) ->
  fst (_call_nearest s) = inr out ->
  is_sequence (length idxs) out.
Proof.
  intros Hi Hd. unfold _call_nearest, bind, get, getattr, lift, raise, ret.
  rewrite Hi, Hd. rewrite read_cells_written. simpl.
  destruct (dmap_err (fun a => take_idxs a idxs) v) as [|r] eqn:E;
    simpl; [discriminate|].
  intros H. injection H as <-. simpl.
  eapply dmap_err_dall; [|exact E]. intros a b Hab.
  now apply take_idxs_length in Hab.
Qed.

Lemma powers_shape kind x xv :
  Forall (fun row => length row = length xv) (powers kind x xv) /\
  (2 <= length (powers kind x xv))%nat.
Proof.
  unfold powers.
  set (d := sub1 xv (map (nthQ x) (map (bracket x) xv))).
  assert (Ld : length d = length xv).
  { subst d. unfold sub1. rewrite length_zip_with, !length_map. lia. }
  assert (L1 : length (ones (length xv)) = length xv) by apply repeat_length.
  destruct (kind =? "cubic")%string; split; simpl; try lia;
    repeat constructor; rewrite ?length_map; assumption.
Qed.

Lemma located_kind x s : _kind (located x s) = _kind s.
Proof.
  unfold located.
  destruct (_kind s =? "nearest")%string,
    (length (atleast_1d x) =? 1)%nat; reflexivity.
Qed.

Lemma located_data x s : _data (located x s) = _data s.
Proof.
  unfold located.
  destruct (_kind s =? "nearest")%string,
    (length (atleast_1d x) =? 1)%nat; reflexivity.
Qed.

Lemma located_return_float x s :
  return_float (located x s)
  = ((length (atleast_1d x) =? 1)%nat || return_float s).
Proof.
  unfold located.
  destruct (_kind s =? "nearest")%string,
    (length (atleast_1d x) =? 1)%nat; reflexivity.
Qed.

Lemma located_diffs x s :
  (_kind s =? "nearest")%string = false ->
  _diffs (located x s) = Some (powers (_kind s) (x_array s) (atleast_1d x)).
Proof. intros H. unfold located. now rewrite H. Qed.

Lemma length_locate kind x xv : length (locate kind x xv) = length xv.
Proof.
  unfold locate. destruct (kind =? "nearest")%string; apply length_map.
Qed.

(** When the evaluator returns on a freshly located instance whose table is
    the built one, it returns one output per query point. *)
Lemma evaluate_located_shape x s out :
  _data s = build s ->
  fst (evaluate_kind (located x s)) = inr out ->
  is_sequence (length (atleast_1d x)) out.
Proof.
  intros D. unfold evaluate_kind, bind, get. rewrite located_kind.
  rewrite <- (length_locate (_kind s) (x_array s)).
  pose proof (located_idxs x s) as Hi.
  destruct (_kind s =? "cubic")%string eqn:Ec.
  { apply String.eqb_eq in Ec.
    assert (N : (_kind s =? "nearest")%string = false) by now rewrite Ec.
    destruct (powers_shape (_kind s) (x_array s) (atleast_1d x)) as [F L].
    rewrite <- (length_locate (_kind s) (x_array s)) in F.
    exact (call_linear_shape _ _ _ out Hi (located_diffs x s N) F L). }
  destruct (_kind s =? "linear")%string eqn:El.
  { apply String.eqb_eq in El.
    assert (N : (_kind s =? "nearest")%string = false) by now rewrite El.
    destruct (powers_shape (_kind s) (x_array s) (atleast_1d x)) as [F L].
    rewrite <- (length_locate (_kind s) (x_array s)) in F.
    exact (call_linear_shape _ _ _ out Hi (located_diffs x s N) F L). }
  destruct (_kind s =? "nearest")%string eqn:En; [|discriminate].
  apply (call_nearest_shape _ _ (y_array s) out Hi).
  rewrite located_data, D. unfold build. now rewrite Ec, El, En.
Qed.

(** ** Evaluation within the knot range *)

Lemma bracket_below_last x q xn :
  last x = Some xn -> q <= xn -> (2 <= length x)%nat ->
  (bracket x q < length x - 1)%nat.
Proof.
  intros Hl Hq Hn. destruct x as [|x0 a]; [discriminate|].
  destruct (Qlt_le_dec x0 q) as [H|H].
  - destruct (bracket_spec x0 a q) as [_ B].
    destruct (B H) as (v & Hv & Hvq & _).
    pose proof (lookup_lt_Some _ _ _ Hv) as Hj.
    destruct (Nat.eq_dec (bracket (x0 :: a) q) (length (x0 :: a) - 1)%nat) as [E|E];
      [|lia].
    exfalso. rewrite last_lookup in Hl.
    replace (Init.Nat.pred (length (x0 :: a))) with (length (x0 :: a) - 1)%nat
      in Hl by lia.
    rewrite <- E, Hv in Hl. injection Hl as ->.
    exact (Qlt_not_le _ _ Hvq Hq).
  - destruct (bracket_spec x0 a q) as [B _]. rewrite (B H). lia.
Qed.

Lemma take_cols_in_range (a : list (list Q)) idxs c :
  Forall (fun row => length row = c) a ->
  Forall (fun i => (i < c)%nat) idxs ->
  take_cols a idxs = inr (map (fun row => map (nthQ row) idxs) a).
Proof.
  intros Fa Fi. induction Fa as [|row a Hrow Fa IH]; simpl; [reflexivity|].
  rewrite take_idxs_in_range by now rewrite Hrow.
  simpl. now rewrite IH.
Qed.

Lemma mul_rows_same n a b :
  Forall (fun row => length row = n) a ->
  Forall (fun row => length row = n) b ->
  mul_rows a b = inr (zip_with (zip_with Qmult) a b).
Proof.
  intros Fa. revert b. induction Fa as [|ra a Hra Fa IH]; intros b Fb.
  - reflexivity.
  - destruct Fb as [|rb b Hrb Fb]; [reflexivity|]. simpl.
    rewrite mul1_same_length by congruence. simpl. now rewrite (IH b Fb).
Qed.

Lemma mul2_same n a b :
  length a = length b ->
  Forall (fun row => length row = n) a ->
  Forall (fun row => length row = n) b ->
  mul2 a b = inr (zip_with (zip_with Qmult) a b).
Proof.
  intros L Fa Fb. unfold mul2, bcast_len. rewrite L, Nat.eqb_refl.
  rewrite bcast_to_same. rewrite <- L. rewrite bcast_to_same.
  now apply (mul_rows_same n).
Qed.

Lemma has_shape_true r c a :
  has_shape r c a = true ->
  length a = r /\ Forall (fun row => length row = c) a.
Proof.
  unfold has_shape. intros H. apply andb_true_iff in H. destruct H as [L F].
  apply Nat.eqb_eq in L. split; [exact L|].
  apply Forall_forall. intros row Hrow.
  rewrite forallb_forall in F. apply Nat.eqb_eq, F.
  now apply list_elem_of_In.
Qed.

Lemma dmap_err_returns {A B} (f : A -> result B) (p : A -> bool) d :
  (forall a, p a = true -> exists b, f a = inr b) ->
  dallb p d = true -> exists d', dmap_err f d = inr d'.
Proof.
  intros Hf H. destruct d as [a | re im]; simpl in *.
  - destruct (Hf a H) as [b ->]. simpl. eauto.
  - apply andb_true_iff in H. destruct H as [H1 H2].
    destruct (Hf re H1) as [r ->]. destruct (Hf im H2) as [i ->]. simpl. eauto.
Qed.

(** The selected columns times the power table, when the table has as many
    rows as the power table and every index is a column of it. *)
Lemma columns_times_powers r c idxs diffs a :
  has_shape r c a = true ->
  Forall (fun i => (i < c)%nat) idxs ->
  length diffs = r ->
  Forall (fun row => length row = length idxs) diffs ->
  exists prod,
    rbind (take_cols a idxs) (fun cols => mul2 cols diffs) = inr prod.
Proof.
  intros Ha Fi Ld Fd. destruct (has_shape_true _ _ _ Ha) as [La Fa].
  rewrite (take_cols_in_range _ _ _ Fa Fi). simpl.
  erewrite (mul2_same (length idxs)).
  - eauto.
  - rewrite length_map. congruence.
  - apply Forall_map, Forall_forall. intros row _. now rewrite length_map.
  - exact Fd.
Qed.


Lemma call_nearest_returns s idxs v n :
  _idxs s = Some (map Some idxs) ->
  _data s = Some (T1 v) ->
  dallb (fun a => (length a =? n)%nat) v = true ->
  Forall (fun i => (i < n)%nat) idxs ->
  exists out, fst (_call_nearest s) = inr out.
Proof.
  intros Hi Hd Hv Fi. unfold _call_nearest, bind, get, getattr, lift, raise, ret.
  rewrite Hi, Hd, read_cells_written. simpl.
  destruct (dmap_err_returns (fun a => take_idxs a idxs)
              (fun a => (length a =? n)%nat) v) as [r ->];
    [|exact Hv|simpl; eauto].
  intros a Ha. apply Nat.eqb_eq in Ha. subst n.
  rewrite (take_idxs_in_range _ _ Fi). eauto.
Qed.

Lemma call_linear_returns s idxs diffs m r c :
  _idxs s = Some (map Some idxs) ->
  _data s = Some (T2 m) ->
  _diffs s = Some diffs ->
  dallb (has_shape r c) m = true ->
  Forall (fun i => (i < c)%nat) idxs ->
  length diffs = r ->
  Forall (fun row => length row = length idxs) diffs ->
  exists out, fst (_call_linear s) = inr out.
Proof.
  intros Hi Hd Hp Hm Fi Ld Fd.
  unfold _call_linear, bind, get, getattr, lift, raise, ret.
  rewrite Hi, Hd. simpl. rewrite read_cells_written. simpl.
  assert (T : forall a, has_shape r c a = true ->
            take_cols a idxs = inr (map (fun row => map (nthQ row) idxs) a) /\
            exists p, mul2 (map (fun row => map (nthQ row) idxs) a) diffs = inr p).
  { intros a Ha. destruct (has_shape_true _ _ _ Ha) as [La Fa].
    split; [now apply (take_cols_in_range _ _ c)|].
    erewrite (mul2_same (length idxs)); [eauto | | | exact Fd].
    - rewrite length_map. congruence.
    - apply Forall_map, Forall_forall. intros row _. now rewrite length_map. }
  destruct m as [a | re im]; simpl in Hm |- *.
  - destruct (T a Hm) as [-> [p Hp']]. simpl. rewrite Hp. simpl.
    rewrite Hp'. simpl. eauto.
  - apply andb_true_iff in Hm. destruct Hm as [H1 H2].
    destruct (T re H1) as [-> [p1 Hp1]]. destruct (T im H2) as [-> [p2 Hp2]].
    simpl. rewrite Hp. simpl. rewrite Hp1, Hp2. simpl. eauto.
Qed.

Lemma length_powers kind x xv :
  length (powers kind x xv) = if (kind =? "cubic")%string then 4%nat else 2%nat.
Proof. unfold powers. now destruct (kind =? "cubic")%string. Qed.

Lemma in_range_brackets x xv :
  in_range x xv = true -> (2 <= length x)%nat ->
  Forall (fun i => (i < length x - 1)%nat) (map (bracket x) xv).
Proof.
  unfold in_range. intros H Hn.
  destruct (last x) as [xn|] eqn:El; [|discriminate].
  apply Forall_map, Forall_forall. intros q Hq.
  rewrite forallb_forall in H.
  apply (bracket_below_last x q xn El); [|exact Hn].
  apply Qle_bool_iff, H. now apply list_elem_of_In.
Qed.

(** With a table of the shape of its kind, and for "linear" and "cubic" at
    least two knots and no query above the last one, the evaluator returns. *)
Lemma evaluate_located_returns x s :
  well_shaped s = true ->
  x_array s <> [] ->
  ((_kind s =? "nearest")%string
   || (2 <=? length (x_array s))%nat && in_range (x_array s) (atleast_1d x)) = true ->
  exists out, fst (evaluate_kind (located x s)) = inr out.
Proof.
  intros W Hx R. unfold evaluate_kind, bind, get. rewrite located_kind.
  pose proof (located_idxs x s) as Hi.
  pose proof (located_data x s) as Hd.
  unfold well_shaped in W.
  destruct (_data s) as [[v|m]|] eqn:D; [| |discriminate].
  - apply andb_true_iff in W. destruct W as [K V].
    pose proof K as K'. apply String.eqb_eq in K'.
    assert (Ec : (_kind s =? "cubic")%string = false) by now rewrite K'.
    assert (El : (_kind s =? "linear")%string = false) by now rewrite K'.
    rewrite Ec, El, K.
    apply (call_nearest_returns _ _ v (length (x_array s)) Hi Hd V).
    unfold locate. rewrite K.
    apply Forall_map, Forall_forall. intros q _.
    now apply nearest_index_spec.
  - assert (N : (_kind s =? "nearest")%string = false).
    { apply orb_true_iff in W. destruct W as [W|W];
        apply andb_true_iff in W; destruct W as [K _];
        apply String.eqb_eq in K; now rewrite K. }
    rewrite N, orb_false_l in R.
    apply andb_true_iff in R. destruct R as [Hn R]. apply Nat.leb_le in Hn.
    pose proof (in_range_brackets _ _ R Hn) as Fi.
    pose proof (located_diffs x s N) as Hp.
    destruct (powers_shape (_kind s) (x_array s) (atleast_1d x)) as [F _].
    pose proof (length_powers (_kind s) (x_array s) (atleast_1d x)) as Lp.
    assert (Li : locate (_kind s) (x_array s) (atleast_1d x)
                 = map (bracket (x_array s)) (atleast_1d x)).
    { unfold locate. now rewrite N. }
    rewrite Li in Hi.
    assert (F' : Forall (fun row => length row
                   = length (map (bracket (x_array s)) (atleast_1d x)))
                   (powers (_kind s) (x_array s) (atleast_1d x))).
    { now rewrite length_map. }
    apply orb_true_iff in W. destruct W as [W|W];
      apply andb_true_iff in W; destruct W as [K Sh];
      pose proof K as K'; apply String.eqb_eq in K'.
    + assert (Lp' : length (powers (_kind s) (x_array s) (atleast_1d x)) = 2%nat)
        by (rewrite Lp, K'; reflexivity).
      assert (Ec : (_kind s =? "cubic")%string = false) by now rewrite K'.
      rewrite Ec, K.
      exact (call_linear_returns _ _ _ m 2 _ Hi Hd Hp Sh Fi Lp' F').
    + assert (Lp' : length (powers (_kind s) (x_array s) (atleast_1d x)) = 4%nat)
        by (rewrite Lp, K'; reflexivity).
      rewrite K.
      exact (call_linear_returns _ _ _ m 4 _ Hi Hd Hp Sh Fi Lp' F').
Qed.

(** ** The scalar-result flag *)

Lemma revalued_built y s : _data s = build s -> _data (revalued y s) = build (revalued y s).
Proof. intros H. destruct y; [reflexivity | exact H]. Qed.

Lemma out_getitem0_sequence out :
  is_sequence 1 out -> exists out', out_getitem0 out = inr out' /\ is_number out'.
Proof.
  destruct out as [v|v|v]; simpl; try contradiction.
  assert (G : forall a : list Q, length a = 1%nat -> exists q, getitem a 0 = inr q).
  { intros [|q [|q' a]] Ha; try discriminate. exists q. reflexivity. }
  destruct v as [a | re im]; simpl.
  - intros Ha. destruct (G a Ha) as [q ->]. simpl.
    eexists. split; [reflexivity | exact I].
  - intros [Hr Hi]. destruct (G re Hr) as [q ->]. destruct (G im Hi) as [q' ->].
    simpl. eexists. split; [reflexivity | exact I].
Qed.

(** C3, as stated, fails: a one-element array sets the flag and is answered
    with a number; and since the query is not looked at while the cache is
    valid, a three-element array evaluated on a cache built from a number is
    answered with a number, and a number evaluated on a cache built from a
    three-element array is answered with three outputs. *)
Lemma scalar_flag_counterexample :
  exists s0,
    __init__ [0; 1; 2; 3] (Real [0; 1; 0; 1]) "linear" = inr s0 /\
    fst (__call__ (QArray [1 # 2]) None true s0) = inr (Out0 (Real (1 # 2))) /\
    return_float (snd (__call__ (QArray [1 # 2]) None true s0)) = true /\
    (let s1 := snd (__call__ (QScalar (1 # 2)) None true s0) in
     fst (__call__ (QArray [1 # 2; 3 # 2; 5 # 2]) None true s1)
     = inr (Out0 (Real (1 # 2)))) /\
    (let s2 := snd (__call__ (QArray [1 # 2; 3 # 2; 5 # 2]) None true s0) in
     fst (__call__ (QScalar (1 # 2)) None true s2)
     = inr (Out1 (Real [1 # 2; 1 # 2; 1 # 2]))).
Proof.
  eexists. split; [reflexivity|]. vm_compute. repeat split.
Qed.

(** C3, amended.  On an instance whose flag is not set, a call that runs the
    locator (no valid cache, or [use_cache=False]) leaves the flag set exactly
    when its query holds one element, be it a number or a one-element array;
    what the call returns is then a single number, and for a query of any
    other length [n] a sequence of [n] outputs.  The call does return when the
    table has the shape of its kind and, for "linear" and "cubic", there are
    two knots or more and no query point lies above the last knot. *)
Theorem scalar_flag_on_locate s x y use_cache :
  return_float s = false ->
  x_array s <> [] ->
  _data s = build s ->
  _cached s && use_cache = false ->
  let n := length (atleast_1d x) in
  let r := __call__ x y use_cache s in
  return_float (snd r) = (n =? 1)%nat /\
  (forall out, fst r = inr out ->
     if (n =? 1)%nat then is_number out else is_sequence n out) /\
  (well_shaped (revalued y s) = true ->
   ((_kind s =? "nearest")%string
    || (2 <=? length (x_array s))%nat
       && in_range (x_array s) (atleast_1d x)) = true ->
   exists out, fst r = inr out).
Proof.
  intros Hrf Hx Hd Hc. cbv zeta.
  rewrite (call_rebuild _ _ _ _ Hx Hc).
  set (s1 := revalued y s).
  assert (Hd1 : _data s1 = build s1) by now apply revalued_built.
  assert (Hrf1 : return_float (located x s1) = (length (atleast_1d x) =? 1)%nat).
  { rewrite located_return_float. subst s1.
    now rewrite revalued_return_float, Hrf, orb_false_r. }
  rewrite evaluate_unwrap_pure.
  split; [exact Hrf1|].
  unfold bind. pose proof (evaluate_kind_pure (located x s1)) as P.
  pose proof (evaluate_located_shape x s1) as Sh.
  pose proof (evaluate_located_returns x s1) as Rt.
  destruct (evaluate_kind (located x s1)) as [[e|out] s'].
  - simpl. split; [discriminate|].
    intros W R. exfalso.
    destruct Rt as [out Ho]; [exact W | | | discriminate].
    + subst s1. now rewrite revalued_x_array.
    + subst s1. now rewrite revalued_kind, revalued_x_array.
  - simpl in P. subst s'. specialize (Sh out Hd1 eq_refl).
    unfold unwrap, bind, get, lift, ret. rewrite Hrf1.
    destruct (length (atleast_1d x) =? 1)%nat eqn:E1.
    + apply Nat.eqb_eq in E1. rewrite E1 in Sh.
      destruct (out_getitem0_sequence out Sh) as (out' & -> & N).
      simpl. split; [|eauto].
      intros o H. now injection H as <-.
    + simpl. split; [|eauto].
      intros o H. now injection H as <-.
Qed.

Lemma scalar_flag_on_locate_witness :
  let s := constructed [0; 1; 2; 3] (Real [0; 1; 0; 1]) "cubic" in
  let x := QArray [1 # 2; 3; 0] in
  let r := __call__ x (Some (Real [1; 0; 1; 0])) true s in
  return_float (snd r) = false /\
  (forall out, fst r = inr out -> is_sequence 3 out) /\
  exists out, fst r = inr out.
Proof.
  intros s x r.
  destruct (scalar_flag_on_locate s x (Some (Real [1; 0; 1; 0])) true)
    as (F & Sh & Rt); try reflexivity; [discriminate|].
  split; [exact F|]. split; [exact Sh|].
  apply Rt; reflexivity.
Defined.

(** The flag is set in [_construct_cache] and cleared nowhere: once a
    one-element query has been evaluated, a three-element query that rebuilds
    the cache is still answered with its first output alone. *)
Example return_float_never_cleared :
  let s0 := constructed [0; 1; 2; 3] (Real [0; 1; 0; 1]) "linear" in
  let s1 := snd (__call__ (QScalar (1 # 2)) None true s0) in
  fst (__call__ (QArray [1 # 2; 3 # 2; 5 # 2]) None false s1)
  = inr (Out0 (Real (1 # 2))).
Proof. reflexivity. Qed.

(** ** A query above the last knot *)

Lemma take_idxs_error {A} (a : list A) idxs e :
  take_idxs a idxs = inl e -> e = IndexError.
Proof.
  induction idxs as [|i idxs IH]; simpl; [discriminate|].
  unfold getitem. destruct (a !! i); simpl.
  - destruct (take_idxs a idxs); simpl; [|discriminate].
    intros H. injection H as <-. now apply IH.
  - intros H. now injection H as <-.
Qed.

Lemma take_idxs_inr {A} (a : list A) idxs r :
  take_idxs a idxs = inr r -> Forall (fun i => (i < length a)%nat) idxs.
Proof.
  revert r. induction idxs as [|i idxs IH]; intros r; simpl; [constructor|].
  unfold getitem. destruct (a !! i) eqn:E; simpl; [|discriminate].
  destruct (take_idxs a idxs) eqn:E'; simpl; [discriminate|]. intros _.
  constructor; [eapply lookup_lt_Some; eauto | eapply IH; eauto].
Qed.

Lemma take_idxs_out_of_range {A} (a : list A) idxs i :
  In i idxs -> (length a <= i)%nat -> take_idxs a idxs = inl IndexError.
Proof.
  intros Hi Hl. destruct (take_idxs a idxs) as [e|r] eqn:E.
  - now rewrite (take_idxs_error _ _ _ E).
  - exfalso. pose proof (take_idxs_inr _ _ _ E) as F.
    rewrite Forall_forall in F. specialize (F i).
    rewrite list_elem_of_In in F. specialize (F Hi). lia.
Qed.

Lemma take_cols_out_of_range r c (a : list (list Q)) idxs i :
  has_shape r c a = true -> (0 < r)%nat ->
  In i idxs -> (c <= i)%nat -> take_cols a idxs = inl IndexError.
Proof.
  intros Ha Hr Hi Hc. destruct (has_shape_true _ _ _ Ha) as [La Fa].
  destruct a as [|row a]; [simpl in La; lia|].
  inversion_clear Fa as [|? ? Hrow _]. simpl.
  rewrite (take_idxs_out_of_range row idxs i Hi) by lia. reflexivity.
Qed.

(** A query above every knot gets the index of the last knot. *)
Lemma bracket_above_last x xn q :
  increasing x = true -> last x = Some xn -> xn < q ->
  bracket x q = (length x - 1)%nat.
Proof.
  intros Hinc Hl Hq. destruct x as [|x0 a]; [discriminate|].
  rewrite last_lookup in Hl.
  replace (Init.Nat.pred (length (x0 :: a))) with (length (x0 :: a) - 1)%nat
    in Hl by lia.
  assert (Hn : nthQ (x0 :: a) (length (x0 :: a) - 1) = xn)
    by now apply lookup_nthQ.
  assert (H0 : x0 < q).
  { destruct a as [|x1 a]; [simpl in Hl; congruence|].
    apply Qlt_trans with xn; [|exact Hq]. rewrite <- Hn.
    apply (increasing_lt _ Hinc 0%nat). simpl. lia. }
  destruct (bracket_spec x0 a q) as [_ B].
  destruct (B H0) as (v & Hv & _ & Hmax).
  pose proof (lookup_lt_Some _ _ _ Hv) as Hj.
  specialize (Hmax _ _ Hl Hq). lia.
Qed.

Lemma call_linear_out_of_range s idxs m r c i :
  _idxs s = Some (map Some idxs) ->
  _data s = Some (T2 m) ->
  dallb (has_shape r c) m = true -> (0 < r)%nat ->
  In i idxs -> (c <= i)%nat ->
  fst (_call_linear s) = inl IndexError.
Proof.
  intros Hi Hd Hm Hr Hin Hc.
  unfold _call_linear, bind, get, getattr, lift, raise, ret.
  rewrite Hi, Hd. simpl. rewrite read_cells_written. simpl.
  destruct m as [a | re im]; simpl in Hm |- *.
  - now rewrite (take_cols_out_of_range r c a idxs i Hm Hr Hin Hc).
  - apply andb_true_iff in Hm. destruct Hm as [H1 _].
    now rewrite (take_cols_out_of_range r c re idxs i H1 Hr Hin Hc).
Qed.

(** C6 fails on the code.  For kind "linear" or "cubic", strictly increasing
    knots and a table of n-1 columns, a call that runs the locator on a query
    holding a point above the last knot raises IndexError: the point gets the
    bracket index n-1, and [self._data[:, self._idxs]] has no column n-1. *)
Theorem query_above_last_knot_raises s x q xn use_cache :
  _kind s = "linear"%string \/ _kind s = "cubic"%string ->
  well_shaped s = true ->
  increasing (x_array s) = true ->
  last (x_array s) = Some xn ->
  In q (atleast_1d x) -> xn < q ->
  _cached s && use_cache = false ->
  fst (__call__ x None use_cache s) = inl IndexError.
Proof.
  intros K W Hinc Hl Hin Hq Hc.
  assert (Hx : x_array s <> []) by (intros E; rewrite E in Hl; discriminate).
  rewrite (call_rebuild _ _ _ _ Hx Hc). simpl revalued.
  assert (N : (_kind s =? "nearest")%string = false)
    by (destruct K as [-> | ->]; reflexivity).
  pose proof (located_idxs x s) as Hi.
  unfold locate in Hi. rewrite N in Hi.
  pose proof (located_data x s) as Hd.
  assert (Hj : In (length (x_array s) - 1)%nat
                 (map (bracket (x_array s)) (atleast_1d x))).
  { rewrite <- (bracket_above_last _ _ _ Hinc Hl Hq). now apply in_map. }
  assert (E : fst (evaluate_kind (located x s)) = inl IndexError).
  { unfold evaluate_kind, bind, get. rewrite located_kind.
    unfold well_shaped in W.
    destruct (_data s) as [[v|m]|] eqn:D; [| |discriminate].
    { rewrite N in W. discriminate. }
    destruct K as [K | K]; rewrite K in W |- *; simpl in W |- *.
    - rewrite orb_false_r in W.
      exact (call_linear_out_of_range _ _ m 2 _ _ Hi Hd W ltac:(lia) Hj ltac:(lia)).
    - exact (call_linear_out_of_range _ _ m 4 _ _ Hi Hd W ltac:(lia) Hj ltac:(lia)). }
  unfold bind. destruct (evaluate_kind (located x s)) as [[e|out] s'];
    simpl in E; [|discriminate].
  now injection E as ->.
Qed.

Lemma query_above_last_knot_raises_witness :
  exists s,
    __init__ [0; 1; 2; 3] (Real [0; 1; 0; 1]) "linear" = inr s /\
    fst (__call__ (QScalar 4) None true s) = inl IndexError.
Proof.
  exists (constructed [0; 1; 2; 3] (Real [0; 1; 0; 1]) "linear").
  split; [reflexivity|].
  apply (query_above_last_knot_raises _ (QScalar 4) 4 3 true).
  - left. reflexivity.
  - reflexivity.
  - reflexivity.
  - reflexivity.
  - simpl. left. reflexivity.
  - reflexivity.
  - reflexivity.
Defined.

(** Below the first knot the same loop clamps the index to 0, and the call
    returns the value of the first interval's line. *)
Example query_below_first_knot_returns :
  fst (__call__ (QScalar (-1)) None true
         (constructed [0; 1; 2; 3] (Real [0; 1; 0; 1]) "linear"))
  = inr (Out0 (Real (-1))).
Proof. reflexivity. Qed.

(** ** Construction, value updates and kind changes *)

Lemma first_call_locates x y kind Q y' use_cache :
  __call__ Q y' use_cache (constructed x y kind)
  = (do _ <- update_values y';
     do _ <- _construct_cache Q;
     do out <- evaluate_kind;
     unwrap out) (constructed x y kind).
Proof.
  unfold __call__.
  rewrite !(bind_inr _ _ _ _ _ (update_values_run y' _)).
  unfold bind at 1. unfold get at 1.
  rewrite revalued_cached. reflexivity.
Qed.

(** C7.  [__init__] with a kind outside "nearest", "linear", "cubic" returns
    the ValueError and no instance.  With one of the three kinds it returns
    an instance that holds the knots and values given, the coefficient table
    built from them for that kind, no bracket indices and no offset powers,
    and a cache-valid flag that is false; whatever [use_cache] is, the first
    [__call__] on it runs the locator. *)
Theorem construction_checks_kind x y kind :
  (~ In kind allowed_kinds -> __init__ x y kind = inl ValueError) /\
  (In kind allowed_kinds ->
     exists s t,
       __init__ x y kind = inr s /\
       x_array s = x /\ y_array s = y /\ _kind s = kind /\
       _data s = Some t /\ build s = Some t /\
       _cached s = false /\ _idxs s = None /\ _diffs s = None /\
       return_float s = false /\
       forall Q y' use_cache,
         __call__ Q y' use_cache s
         = (do _ <- update_values y';
            do _ <- _construct_cache Q;
            do out <- evaluate_kind;
            unwrap out) s).
Proof.
  split; [apply init_refused|].
  intros H. rewrite (init_allowed _ _ _ H).
  assert (B : exists t, build (constructed x y kind) = Some t).
  { simpl in H. destruct H as [<- | [<- | [<- | []]]];
      unfold build; simpl; [eauto | eauto |].
    destruct y; eauto. }
  destruct B as [t B].
  exists (constructed x y kind), t.
  repeat split; try reflexivity; try exact B.
  intros Q y' use_cache. apply first_call_locates.
Qed.

Lemma construction_checks_kind_witness :
  __init__ [0; 1; 2; 3] (Real [0; 1; 0; 1]) "quadratic" = inl ValueError /\
  exists s t,
    __init__ [0; 1; 2; 3] (Real [0; 1; 0; 1]) "linear" = inr s /\
    _data s = Some t /\ _cached s = false /\ _idxs s = None.
Proof.
  split.
  - apply (construction_checks_kind [0; 1; 2; 3] (Real [0; 1; 0; 1]) "quadratic").
    simpl. intros [H | [H | [H | []]]]; discriminate H.
  - destruct (construction_checks_kind [0; 1; 2; 3] (Real [0; 1; 0; 1]) "linear")
      as [_ C].
    destruct C as (s & t & E & _ & _ & _ & D & _ & Hc & Hi & _).
    + simpl. right. left. reflexivity.
    + exists s, t. repeat split; assumption.
Defined.

(** C8, as stated, fails: with three knots and two values the construction of
    a "nearest" interpolant succeeds, and so do its evaluation and a value
    update with a single value. *)
Lemma length_mismatch_counterexample :
  exists s,
    __init__ [0; 1; 2] (Real [0; 1]) "nearest" = inr s /\
    _data s = Some (T1 (Real [0; 1])) /\
    fst (__call__ (QScalar (4 # 10)) None true s) = inr (Out0 (Real 0)) /\
    fst (__call__ (QScalar (4 # 10)) (Some (Real [5])) true s)
    = inr (Out0 (Real 5)).
Proof.
  eexists. split; [reflexivity|]. vm_compute. repeat split.
Qed.

(** C8, amended.  The class compares no lengths.  For kind "nearest",
    [__init__] succeeds for knots and values of any lengths and keeps the
    value array as the table, and a value update replaces array and table by
    the new array of any length without raising. *)
Theorem nearest_takes_any_lengths x y y' :
  (exists s,
     __init__ x y "nearest" = inr s /\
     x_array s = x /\ y_array s = y /\ _data s = Some (T1 y)) /\
  (forall s,
     _kind s = "nearest"%string ->
     update_values (Some y') s
     = (inr tt, set_data (Some (T1 y')) (set_y_array y' s))).
Proof.
  split.
  - exists (constructed x y "nearest"). repeat split; reflexivity.
  - intros s K. rewrite update_values_run. unfold revalued, build.
    simpl. rewrite K. reflexivity.
Qed.

Lemma nearest_takes_any_lengths_witness :
  let s := constructed [0; 1; 2] (Real [0; 1]) "nearest" in
  update_values (Some (Real [5])) s
  = (inr tt, set_data (Some (T1 (Real [5]))) (set_y_array (Real [5]) s)).
Proof.
  intros s.
  destruct (nearest_takes_any_lengths [0; 1; 2] (Real [0; 1]) (Real [5]))
    as [_ U].
  apply U. reflexivity.
Defined.

Lemma revalued_same_locator_cache y s : same_locator_cache s (revalued y s).
Proof. destruct y; repeat split. Qed.

(** C9.  The value update of [__call__] (lines 182-184) raises nothing and
    changes the value array and the coefficient table only: bracket indices,
    offset powers, cache-valid flag and scalar-result flag, knots and kind
    stay as they were.  A whole call with new values on an instance whose
    cache is valid, with the cache on, leaves them untouched as well, so the
    cached locator data survives the update. *)
Theorem value_update_keeps_locator_cache s x y :
  (let u := update_values (Some y) s in
   fst u = inr tt /\ y_array (snd u) = y /\ _data (snd u) = build (snd u) /\
   same_locator_cache s (snd u)) /\
  (_cached s = true ->
   let s' := snd (__call__ x (Some y) true s) in
   y_array s' = y /\ _data s' = build s' /\ same_locator_cache s s').
Proof.
  split.
  - rewrite update_values_run. simpl.
    repeat split.
  - intros C. cbv zeta. rewrite (call_cached _ _ _ C), evaluate_unwrap_pure.
    repeat split.
Qed.

Lemma value_update_keeps_locator_cache_witness :
  let s := located (QArray [1 # 2; 3 # 2])
             (constructed [0; 1; 2; 3] (Real [0; 1; 0; 1]) "linear") in
  let s' := snd (__call__ (QArray [1 # 2; 3 # 2]) (Some (Real [1; 0; 1; 0])) true s) in
  y_array s' = Real [1; 0; 1; 0] /\ _data s' = build s' /\
  same_locator_cache s s'.
Proof.
  intros s.
  destruct (value_update_keeps_locator_cache s (QArray [1 # 2; 3 # 2])
              (Real [1; 0; 1; 0])) as [_ C].
  apply C. reflexivity.
Defined.

(** C10.  Assigning [kind] raises nothing, stores the new kind and the table
    built for it, and leaves the cache-valid flag, the bracket indices and
    the offset powers as they were.  If the cache was valid, the next call
    with the cache on does not run the locator: it evaluates the new table
    against those indices and powers, whatever query it is given, and leaves
    the instance as the assignment left it. *)
Theorem kind_change_keeps_locator_cache s kind :
  let k := kind_setter kind s in
  fst k = inr tt /\ _kind (snd k) = kind /\ _data (snd k) = build (snd k) /\
  _cached (snd k) = _cached s /\ _idxs (snd k) = _idxs s /\
  _diffs (snd k) = _diffs s /\
  (_cached s = true ->
   forall Q,
     __call__ Q None true (snd k)
     = (do out <- evaluate_kind; unwrap out) (snd k) /\
     snd (__call__ Q None true (snd k)) = snd k).
Proof.
  cbv zeta.
  set (s1 := set_data (build (set__kind kind s)) (set__kind kind s)).
  assert (E : kind_setter kind s = (inr tt, s1)) by reflexivity.
  rewrite E. simpl fst. simpl snd.
  repeat split.
  - now rewrite (call_cached Q None s1).
  - now rewrite (call_cached Q None s1), evaluate_unwrap_pure.
Qed.

Lemma kind_change_keeps_locator_cache_witness :
  let s := located (QArray [1 # 2; 3 # 2; 3])
             (constructed [0; 1; 2; 3] (Real [0; 10; 20; 30]) "linear") in
  let s' := snd (kind_setter "nearest" s) in
  let Q := QArray [5 # 2] in
  __call__ Q None true s' = (do out <- evaluate_kind; unwrap out) s' /\
  snd (__call__ Q None true s') = s'.
Proof.
  intros s s' Q.
  destruct (kind_change_keeps_locator_cache s "nearest")
    as (_ & _ & _ & _ & _ & _ & C).
  apply C. reflexivity.
Defined.

(** After "linear" is changed to "nearest" the cached call returns the values
    at the bracket indices 0, 1, 2, where a rebuilt cache gives the nearest
    knots 0, 1, 3; after a change to "cubic" the two rows of powers do not
    match the four rows of the table and the product raises. *)
Example kind_change_stale_cache :
  let s := snd (__call__ (QArray [1 # 2; 3 # 2; 3]) None true
                  (constructed [0; 1; 2; 3] (Real [0; 10; 20; 30]) "linear")) in
  fst (__call__ (QArray [1 # 2; 3 # 2; 3]) None true (snd (kind_setter "nearest" s)))
  = inr (Out1 (Real [0; 10; 20])) /\
  fst (__call__ (QArray [1 # 2; 3 # 2; 3]) None false (snd (kind_setter "nearest" s)))
  = inr (Out1 (Real [0; 10; 30])) /\
  fst (__call__ (QArray [1 # 2; 3 # 2; 3]) None true (snd (kind_setter "cubic" s)))
  = inl ValueError.
Proof. vm_compute. repeat split. Qed.

(** ** The shape of the built tables and the scenarios of the specification *)

(** The tables of the modelled builders have the shape of their kind. *)
Lemma built_table_well_shaped s :
  In (_kind s) allowed_kinds ->
  dallb (fun a => (length a =? length (x_array s))%nat) (y_array s) = true ->
  _data s = build s ->
  well_shaped s = true.
Proof.
  intros K Y D. unfold well_shaped. rewrite D. unfold build.
  assert (L : forall (f : nat -> Q) n, (length (map f (seq 0 n)) =? n)%nat = true).
  { intros f n. rewrite length_map, length_seq. apply Nat.eqb_refl. }
  simpl in K. destruct K as [K | [K | [K | []]]]; rewrite <- K; simpl.
  - exact Y.
  - destruct (y_array s); simpl; unfold has_shape; simpl; now rewrite !L.
  - destruct (y_array s); simpl; unfold has_shape; simpl; now rewrite !L.
Qed.

(** Scenario 1: linear interpolation of 0, 1, 0, 1 over the knots 0..3. *)
Example scenario_linear :
  let s := constructed [0; 1; 2; 3] (Real [0; 1; 0; 1]) "linear" in
  fst (__call__ (QScalar (1 # 2)) None true s) = inr (Out0 (Real (1 # 2))) /\
  fst (__call__ (QScalar (5 # 2)) None true s) = inr (Out0 (Real (1 # 2))).
Proof. vm_compute. split; reflexivity. Qed.

(** Scenario 2: nearest neighbour over the knots 0, 1, 2. *)
Example scenario_nearest :
  let s := constructed [0; 1; 2] (Real [0; 1; 0]) "nearest" in
  fst (__call__ (QScalar (4 # 10)) None true s) = inr (Out0 (Real 0)) /\
  fst (__call__ (QScalar (6 # 10)) None true s) = inr (Out0 (Real 1)).
Proof. vm_compute. split; reflexivity. Qed.

(** Scenario 3: the natural cubic spline through 0, 1, 0, 1 takes these
    values at the knots (as rationals, up to the representation of the
    fractions). *)
Example scenario_cubic :
  exists v,
    fst (__call__ (QArray [0; 1; 2; 3]) None true
           (constructed [0; 1; 2; 3] (Real [0; 1; 0; 1]) "cubic"))
    = inr (Out1 (Real v)) /\
    Forall2 Qeq v [0; 1; 0; 1].
Proof.
  eexists. split; [vm_compute; reflexivity|].
  repeat constructor; reflexivity.
Qed.

(** * Further properties of the class *)

(** ** The locator, whatever the knots *)

Lemma construct_cache_no_knots s x q xs :
  x_array s = [] -> atleast_1d x = q :: xs ->
  _construct_cache x s
  = (inl (if (_kind s =? "nearest")%string then ValueError else IndexError),
     set_idxs (Some (empty (length (q :: xs))))
       (set_cached true
          (if (length (q :: xs) =? 1)%nat then set_return_float true s else s))).
Proof.
  intros Hx Hq. unfold _construct_cache.
  unfold bind at 1. unfold get at 1. rewrite Hx, Hq.
  set (s1 := if (length (q :: xs) =? 1)%nat then set_return_float true s else s).
  rewrite (bind_inr _ _ s tt s1).
  2:{ subst s1. destruct (length (q :: xs) =? 1)%nat; reflexivity. }
  unfold bind at 1. unfold modify at 1.
  unfold bind at 1. unfold modify at 1.
  unfold bind at 1. unfold get at 1.
  set (s2 := set_idxs _ _).
  assert (K : _kind s2 = _kind s).
  { subst s2 s1. destruct (length (q :: xs) =? 1)%nat; reflexivity. }
  rewrite K.
  destruct (_kind s =? "nearest")%string; reflexivity.
Qed.

Lemma construct_cache_no_knots_no_query s x :
  x_array s = [] -> atleast_1d x = [] ->
  _construct_cache x s
  = (inr tt,
     if (_kind s =? "nearest")%string
     then set_idxs (Some []) (set_cached true s)
     else set_diffs (Some (if (_kind s =? "cubic")%string
                           then [[]; []; []; []] else [[]; []]))
            (set_idxs (Some []) (set_cached true s))).
Proof.
  intros Hx Hq. unfold _construct_cache.
  unfold bind at 1. unfold get at 1. rewrite Hx, Hq. simpl.
  unfold bind, modify, get, ret. simpl.
  destruct (_kind s =? "nearest")%string; [reflexivity|].
  unfold offsets, bind, getattr, lift, ret. simpl.
  destruct (_kind s =? "cubic")%string; reflexivity.
Qed.

(** What [_construct_cache] leaves of the instance in every case, also when
    it raises. *)
Lemma construct_cache_frame s x :
  let s' := snd (_construct_cache x s) in
  _cached s' = true /\
  return_float s' = ((length (atleast_1d x) =? 1)%nat || return_float s) /\
  x_array s' = x_array s /\ y_array s' = y_array s /\
  _data s' = _data s /\ _kind s' = _kind s.
Proof.
  cbv zeta.
  assert (D : x_array s = [] \/ x_array s <> []).
  { destruct (x_array s); [left; reflexivity | right; discriminate]. }
  destruct D as [Hx | Hne].
  - destruct (atleast_1d x) as [|q xs] eqn:Hq.
    + rewrite (construct_cache_no_knots_no_query s x Hx Hq). simpl.
      destruct (_kind s =? "nearest")%string; simpl; repeat split; auto.
    + rewrite (construct_cache_no_knots s x q xs Hx Hq). simpl.
      destruct (length xs =? 0)%nat; simpl; repeat split; auto.
  - rewrite (construct_cache_located x s Hne). simpl snd.
    rewrite located_cached, located_return_float, located_x_array,
      located_data, located_kind.
    repeat split.
    unfold located.
    destruct (_kind s =? "nearest")%string,
      (length (atleast_1d x) =? 1)%nat; reflexivity.
Qed.

(** The instance [__call__] leaves, also when it raises. *)
Lemma call_state x y use_cache s :
  snd (__call__ x y use_cache s)
  = if _cached s && use_cache then revalued y s
    else snd (_construct_cache x (revalued y s)).
Proof.
  unfold __call__.
  rewrite (bind_inr _ _ _ _ _ (update_values_run y s)).
  unfold bind at 1. unfold get at 1. rewrite revalued_cached.
  destruct (_cached s && use_cache); simpl.
  - unfold bind at 1. unfold ret at 1.
    apply (evaluate_unwrap_pure (revalued y s)).
  - unfold bind at 1.
    destruct (_construct_cache x (revalued y s)) as [[e|[]] s']; simpl.
    + reflexivity.
    + apply (evaluate_unwrap_pure s').
Qed.

Lemma build_ext s s' :
  x_array s' = x_array s -> y_array s' = y_array s -> _kind s' = _kind s ->
  build s' = build s.
Proof. intros X Y K. unfold build. now rewrite X, Y, K. Qed.

(** X1.  With at least one knot the locator raises nothing, for every kind
    (one outside the three included): it marks the cache valid and writes one
    index per query point, each the position of a knot. *)
Theorem locator_writes_knot_positions s x :
  x_array s <> [] ->
  let r := _construct_cache x s in
  fst r = inr tt /\ _cached (snd r) = true /\
  exists idxs,
    _idxs (snd r) = Some (map Some idxs) /\
    length idxs = length (atleast_1d x) /\
    Forall (fun j => (j < length (x_array s))%nat) idxs.
Proof.
  intros Hx. cbv zeta. rewrite (construct_cache_located x s Hx).
  simpl fst. simpl snd. split; [reflexivity|].
  split; [apply located_cached|].
  exists (locate (_kind s) (x_array s) (atleast_1d x)).
  split; [apply located_idxs|]. split; [apply length_locate|].
  unfold locate. destruct (_kind s =? "nearest")%string;
    apply Forall_map, Forall_forall; intros q _.
  - now apply nearest_index_spec.
  - now apply bracket_lt_length.
Qed.

Lemma locator_writes_knot_positions_witness :
  let s := constructed [0; 1; 2; 3] (Real [0; 1; 0; 1]) "cubic" in
  let r := _construct_cache (QArray [-1; 1 # 2; 7]) s in
  fst r = inr tt /\ _cached (snd r) = true /\
  exists idxs,
    _idxs (snd r) = Some (map Some idxs) /\
    length idxs = 3%nat /\
    Forall (fun j => (j < 4)%nat) idxs.
Proof.
  intros s.
  apply (locator_writes_knot_positions s (QArray [-1; 1 # 2; 7])).
  discriminate.
Defined.

Lemma lookup_ones n i : (i < n)%nat -> ones n !! i = Some 1.
Proof.
  unfold ones. revert i. induction n as [|n IH]; intros i H; [lia|].
  destruct i as [|i]; simpl; [reflexivity|]. apply IH. lia.
Qed.

Lemma lookup_sub1_map (f : Q -> Q) xv i q :
  xv !! i = Some q -> sub1 xv (map f xv) !! i = Some (q - f q).
Proof.
  intros H. unfold sub1. rewrite lookup_zip_with, list_lookup_fmap, H.
  reflexivity.
Qed.

(** X2.  For every kind but "nearest" and at least one knot, the offset-power
    table the locator leaves has two rows, four for "cubic", each as long as
    the query; at the position of a query point [q] with bracket index [j]
    the rows hold 1, d, and for "cubic" also d^2 and d^3, where
    d = q - knots[j]. *)
Theorem offset_powers_of_query s x i q :
  _kind s <> "nearest"%string ->
  x_array s <> [] ->
  atleast_1d x !! i = Some q ->
  let r := _construct_cache x s in
  exists j cells rows r0 r1,
    _idxs (snd r) = Some cells /\ cells !! i = Some (Some j) /\
    _diffs (snd r) = Some rows /\
    length rows = (if (_kind s =? "cubic")%string then 4%nat else 2%nat) /\
    Forall (fun row => length row = length (atleast_1d x)) rows /\
    rows !! 0%nat = Some r0 /\ r0 !! i = Some 1 /\
    rows !! 1%nat = Some r1 /\ r1 !! i = Some (q - nthQ (x_array s) j) /\
    (_kind s = "cubic"%string ->
     exists r2 r3,
       rows !! 2%nat = Some r2 /\ r2 !! i = Some ((q - nthQ (x_array s) j) ^ 2) /\
       rows !! 3%nat = Some r3 /\ r3 !! i = Some ((q - nthQ (x_array s) j) ^ 3)).
Proof.
  intros K Hx Hq. cbv zeta. rewrite (construct_cache_located x s Hx).
  simpl snd.
  assert (N : (_kind s =? "nearest")%string = false).
  { destruct (_kind s =? "nearest")%string eqn:E; [|reflexivity].
    apply String.eqb_eq in E. contradiction. }
  set (xv := atleast_1d x) in *.
  set (knots := x_array s) in *.
  set (f := fun q' => nthQ knots (bracket knots q')).
  assert (D : sub1 xv (map (nthQ knots) (map (bracket knots) xv)) !! i
              = Some (q - nthQ knots (bracket knots q))).
  { rewrite map_map. exact (lookup_sub1_map f xv i q Hq). }
  set (d := sub1 xv (map (nthQ knots) (map (bracket knots) xv))) in *.
  assert (Hi : (i < length xv)%nat) by (eapply lookup_lt_Some; eauto).
  exists (bracket knots q), (map Some (map (bracket knots) xv)),
    (powers (_kind s) knots xv), (ones (length xv)), d.
  split. { rewrite located_idxs. unfold locate. now rewrite N. }
  split. { now rewrite !list_lookup_fmap, Hq. }
  split. { now apply located_diffs. }
  split. { apply length_powers. }
  split. { apply powers_shape. }
  unfold powers. fold d.
  destruct (_kind s =? "cubic")%string eqn:Ec.
  - repeat split; try assumption; try (now apply lookup_ones).
    intros _. exists (map (fun v => v ^ 2) d), (map (fun v => v ^ 3) d).
    repeat split; rewrite list_lookup_fmap, D; reflexivity.
  - repeat split; try assumption; try (now apply lookup_ones).
    intros Kc. rewrite Kc in Ec. discriminate.
Qed.

Lemma offset_powers_of_query_witness :
  let s := constructed [0; 1; 2; 3] (Real [0; 1; 0; 1]) "cubic" in
  let x := QArray [1 # 2; 5 # 2] in
  let r := _construct_cache x s in
  exists j cells rows r0 r1,
    _idxs (snd r) = Some cells /\ cells !! 1%nat = Some (Some j) /\
    _diffs (snd r) = Some rows /\
    length rows = 4%nat /\
    Forall (fun row => length row = 2%nat) rows /\
    rows !! 0%nat = Some r0 /\ r0 !! 1%nat = Some 1 /\
    rows !! 1%nat = Some r1 /\
    r1 !! 1%nat = Some ((5 # 2) - nthQ [0; 1; 2; 3] j) /\
    (_kind s = "cubic"%string ->
     exists r2 r3,
       rows !! 2%nat = Some r2 /\
       r2 !! 1%nat = Some (((5 # 2) - nthQ [0; 1; 2; 3] j) ^ 2) /\
       rows !! 3%nat = Some r3 /\
       r3 !! 1%nat = Some (((5 # 2) - nthQ [0; 1; 2; 3] j) ^ 3)).
Proof.
  intros s x.
  apply (offset_powers_of_query s x 1%nat (5 # 2)).
  - discriminate.
  - discriminate.
  - reflexivity.
Defined.

(** X3.  Without knots and with a query of at least one point the locator
    raises on the first point, ValueError from [argmin] for "nearest" and
    IndexError from [x_array[0]] otherwise; the cache-valid flag, written
    before the loop, is left set, no cell of the index array is written and
    the offset powers are untouched. *)
Theorem locator_without_knots s x :
  x_array s = [] ->
  atleast_1d x <> [] ->
  let r := _construct_cache x s in
  fst r = inl (if (_kind s =? "nearest")%string then ValueError else IndexError) /\
  _cached (snd r) = true /\
  _idxs (snd r) = Some (empty (length (atleast_1d x))) /\
  _diffs (snd r) = _diffs s.
Proof.
  intros Hx Hq. cbv zeta.
  destruct (atleast_1d x) as [|q xs] eqn:E; [congruence|].
  rewrite (construct_cache_no_knots s x q xs Hx E). simpl.
  destruct (length xs =? 0)%nat; repeat split.
Qed.

Lemma locator_without_knots_witness :
  let s := constructed [] (Real []) "nearest" in
  let r := _construct_cache (QScalar (1 # 2)) s in
  fst r = inl ValueError /\
  _cached (snd r) = true /\
  _idxs (snd r) = Some [None] /\
  _diffs (snd r) = None.
Proof.
  intros s.
  apply (locator_without_knots s (QScalar (1 # 2))).
  - reflexivity.
  - discriminate.
Defined.

(** X4.  What the locator writes depends on the knots, the kind and the query
    alone: two instances with the same knots and kind, whatever their values,
    tables and earlier caches, get the same bracket indices and, for every
    kind but "nearest", the same offset powers. *)
Theorem locator_ignores_values s s' x :
  x_array s' = x_array s ->
  _kind s' = _kind s ->
  x_array s <> [] ->
  _idxs (snd (_construct_cache x s')) = _idxs (snd (_construct_cache x s)) /\
  (_kind s <> "nearest"%string ->
   _diffs (snd (_construct_cache x s')) = _diffs (snd (_construct_cache x s))).
Proof.
  intros X K Hx.
  assert (Hx' : x_array s' <> []) by now rewrite X.
  rewrite (construct_cache_located x s Hx), (construct_cache_located x s' Hx').
  simpl snd. rewrite !located_idxs, X, K. split; [reflexivity|].
  intros N.
  assert (E : (_kind s =? "nearest")%string = false).
  { destruct (_kind s =? "nearest")%string eqn:E; [|reflexivity].
    apply String.eqb_eq in E. contradiction. }
  rewrite !located_diffs by (rewrite ?K; exact E).
  now rewrite X, K.
Qed.

Lemma locator_ignores_values_witness :
  let s := constructed [0; 1; 2; 3] (Real [0; 1; 0; 1]) "linear" in
  let s' := constructed [0; 1; 2; 3] (Complex [5; 6; 7; 8] [1; 1; 1; 1]) "linear" in
  let x := QArray [1 # 2; 5 # 2] in
  _idxs (snd (_construct_cache x s')) = _idxs (snd (_construct_cache x s)) /\
  (_kind s <> "nearest"%string ->
   _diffs (snd (_construct_cache x s')) = _diffs (snd (_construct_cache x s))).
Proof.
  intros s s' x.
  apply (locator_ignores_values s s' x).
  - reflexivity.
  - reflexivity.
  - discriminate.
Defined.

(** ** The orchestrator *)

(** The result of evaluating and unwrapping depends on the attributes read:
    kind, table, bracket indices, scalar-result flag and, save for "nearest",
    offset powers. *)
Lemma evaluate_unwrap_ext u u' :
  _kind u' = _kind u -> _data u' = _data u -> _idxs u' = _idxs u ->
  return_float u' = return_float u ->
  (_diffs u' = _diffs u \/ _kind u = "nearest"%string) ->
  fst ((do out <- evaluate_kind; unwrap out) u')
  = fst ((do out <- evaluate_kind; unwrap out) u).
Proof.
  destruct u as [rf xa ya da ki ca ix df], u' as [rf' xa' ya' da' ki' ca' ix' df'].
  simpl. intros -> -> -> -> [-> | ->].
  - unfold evaluate_kind, bind, get. simpl.
    destruct (ki =? "cubic")%string.
    { unfold _call_cubic, unwrap, bind, get, getattr, lift, raise, ret.
      simpl. run_method. }
    destruct (ki =? "linear")%string.
    { unfold _call_linear, unwrap, bind, get, getattr, lift, raise, ret.
      simpl. run_method. }
    destruct (ki =? "nearest")%string.
    { unfold _call_nearest, unwrap, bind, get, getattr, lift, raise, ret.
      simpl. run_method. }
    reflexivity.
  - unfold evaluate_kind, bind, get. simpl.
    unfold _call_nearest, unwrap, bind, get, getattr, lift, raise, ret.
    simpl. run_method.
Qed.

Lemma revalued_y_array_ext y s s' :
  y_array s' = y_array s -> y_array (revalued y s') = y_array (revalued y s).
Proof. destruct y; simpl; auto. Qed.

Lemma revalued_data_ext y s s' :
  x_array s' = x_array s -> y_array s' = y_array s -> _kind s' = _kind s ->
  _data s' = _data s -> _data (revalued y s') = _data (revalued y s).
Proof.
  intros X Y K D. destruct y; simpl; [|exact D].
  apply build_ext; simpl; auto.
Qed.

(** X5.  With [use_cache=False] and at least one knot, the result of
    [__call__] does not depend on what was cached before: two instances with
    the same knots, values, table, kind and scalar-result flag give the same
    outputs or the same exception, whatever their bracket indices, offset
    powers and cache-valid flags are. *)
Theorem uncached_call_ignores_cache s s' x y :
  x_array s' = x_array s -> y_array s' = y_array s -> _data s' = _data s ->
  _kind s' = _kind s -> return_float s' = return_float s ->
  x_array s <> [] ->
  fst (__call__ x y false s') = fst (__call__ x y false s).
Proof.
  intros X Y D K R Hx.
  assert (Hx' : x_array s' <> []) by now rewrite X.
  rewrite (call_rebuild x y false s Hx) by apply andb_false_r.
  rewrite (call_rebuild x y false s' Hx') by apply andb_false_r.
  apply evaluate_unwrap_ext.
  - now rewrite !located_kind, !revalued_kind.
  - rewrite !located_data. now apply revalued_data_ext.
  - now rewrite !located_idxs, !revalued_kind, !revalued_x_array, X, K.
  - now rewrite !located_return_float, !revalued_return_float, R.
  - rewrite located_kind, revalued_kind.
    destruct (_kind s =? "nearest")%string eqn:E.
    + right. now apply String.eqb_eq.
    + left. rewrite !located_diffs by (rewrite revalued_kind, ?K; exact E).
      now rewrite !revalued_kind, !revalued_x_array, X, K.
Qed.

Lemma uncached_call_ignores_cache_witness :
  let s := constructed [0; 1; 2; 3] (Real [0; 10; 20; 30]) "linear" in
  let s' := located (QArray [1 # 2; 3 # 2; 3]) s in
  let x := QArray [5 # 2; 1 # 2] in
  fst (__call__ x None false s') = fst (__call__ x None false s).
Proof.
  intros s s' x.
  apply (uncached_call_ignores_cache s s' x None); try reflexivity.
  discriminate.
Defined.

Lemma revalued_idem y s : revalued y (revalued y s) = revalued y s.
Proof. destruct y, s; reflexivity. Qed.

Lemma revalued_located y x s :
  revalued y (located x (revalued y s)) = located x (revalued y s).
Proof.
  destruct y as [y'|]; [|reflexivity].
  destruct s. unfold located, revalued. simpl.
  destruct (_kind0 =? "nearest")%string,
    (length (atleast_1d x) =? 1)%nat; reflexivity.
Qed.

(** X6.  With at least one knot, a call leaves the instance such that a
    second call with the same value argument and the cache on, with any
    query, gives the same result again (outputs or exception) and leaves the
    instance as it is. *)
Theorem repeated_call_is_stable s x x' y use_cache :
  x_array s <> [] ->
  let r := __call__ x y use_cache s in
  __call__ x' y true (snd r) = r.
Proof.
  intros Hx. cbv zeta. destruct (_cached s && use_cache) eqn:C.
  - apply andb_true_iff in C. destruct C as [C ->].
    rewrite (call_cached x y s C), evaluate_unwrap_pure.
    rewrite (call_cached x' y (revalued y s))
      by now rewrite revalued_cached.
    now rewrite revalued_idem.
  - rewrite (call_rebuild x y use_cache s Hx C), evaluate_unwrap_pure.
    rewrite (call_cached x' y (located x (revalued y s)))
      by apply located_cached.
    now rewrite revalued_located.
Qed.

Lemma repeated_call_is_stable_witness :
  let s := constructed [0; 1; 2; 3] (Real [0; 10; 20; 30]) "cubic" in
  let r := __call__ (QArray [1 # 2; 4]) (Some (Real [1; 0; 1; 0])) true s in
  __call__ (QScalar 1) (Some (Real [1; 0; 1; 0])) true (snd r) = r.
Proof.
  intros s.
  apply (repeated_call_is_stable s (QArray [1 # 2; 4]) (QScalar 1)
           (Some (Real [1; 0; 1; 0])) true).
  discriminate.
Defined.

(** X7.  On an instance whose cache is valid, a call with the cache on and no
    new values writes no attribute: the instance is left exactly as it was,
    whether the evaluation returns or raises. *)
Theorem cached_call_writes_nothing s x :
  _cached s = true -> snd (__call__ x None true s) = s.
Proof.
  intros C. now rewrite (call_cached x None s C), evaluate_unwrap_pure.
Qed.

Lemma cached_call_writes_nothing_witness :
  let s := located (QArray [1 # 2; 4])
             (constructed [0; 1; 2; 3] (Real [0; 10; 20; 30]) "linear") in
  snd (__call__ (QScalar 1) None true s) = s.
Proof.
  intros s. apply (cached_call_writes_nothing s (QScalar 1)). reflexivity.
Defined.

(** [__call__], step by step, also when the locator raises. *)
Lemma call_unfold x y use_cache s :
  __call__ x y use_cache s
  = if _cached s && use_cache
    then (do out <- evaluate_kind; unwrap out) (revalued y s)
    else match _construct_cache x (revalued y s) with
         | (inr _, s') => (do out <- evaluate_kind; unwrap out) s'
         | (inl e, s') => (inl e, s')
         end.
Proof.
  unfold __call__.
  rewrite (bind_inr _ _ _ _ _ (update_values_run y s)).
  unfold bind at 1. unfold get at 1. rewrite revalued_cached.
  destruct (_cached s && use_cache); simpl.
  - reflexivity.
  - unfold bind at 1.
    destruct (_construct_cache x (revalued y s)) as [[e|[]] s']; reflexivity.
Qed.

(** X8.  No method clears a flag.  Every call, returning or raising, leaves
    the cache-valid flag set; it leaves the scalar-result flag set when it
    was set before, or when the call ran the locator on a query of one
    element, and not otherwise.  Assigning [kind] leaves both flags as they
    are. *)
Theorem flags_after_call s x y use_cache kind :
  let s' := snd (__call__ x y use_cache s) in
  _cached s' = true /\
  return_float s'
  = (negb (_cached s && use_cache) && (length (atleast_1d x) =? 1)%nat
     || return_float s) /\
  _cached (snd (kind_setter kind s)) = _cached s /\
  return_float (snd (kind_setter kind s)) = return_float s.
Proof.
  cbv zeta. rewrite call_state.
  destruct (_cached s && use_cache) eqn:C.
  - apply andb_true_iff in C. destruct C as [C _].
    rewrite revalued_cached, revalued_return_float. repeat split. exact C.
  - destruct (construct_cache_frame (revalued y s) x) as (Hc & Hr & _).
    rewrite Hc, Hr, revalued_return_float. repeat split.
Qed.

Lemma call_linear_out1 u o :
  fst (_call_linear u) = inr o -> exists v, o = Out1 v.
Proof.
  unfold _call_linear, bind, get, getattr, lift, raise, ret.
  repeat (destruct_scrutinee; simpl); try discriminate;
    intros H; injection H as <-; eauto.
Qed.

Lemma call_nearest_out1 u v o :
  _data u = Some (T1 v) -> fst (_call_nearest u) = inr o -> exists w, o = Out1 w.
Proof.
  intros D. unfold _call_nearest, bind, get, getattr, lift, raise, ret.
  rewrite D.
  repeat (destruct_scrutinee; simpl); try discriminate;
    intros H; injection H as <-; eauto.
Qed.

(** With the built table the evaluator returns one-dimensional outputs. *)
Lemma evaluate_kind_out1 u o :
  _data u = build u -> fst (evaluate_kind u) = inr o -> exists v, o = Out1 v.
Proof.
  intros D. unfold evaluate_kind, bind, get.
  destruct (_kind u =? "cubic")%string eqn:Ec; [apply call_linear_out1|].
  destruct (_kind u =? "linear")%string eqn:El; [apply call_linear_out1|].
  destruct (_kind u =? "nearest")%string eqn:En; [|discriminate].
  apply (call_nearest_out1 u (y_array u)).
  rewrite D. unfold build. now rewrite Ec, El, En.
Qed.

Lemma evaluate_unwrap_flagged u out :
  return_float u = true -> _data u = build u ->
  fst ((do o <- evaluate_kind; unwrap o) u) = inr out -> is_number out.
Proof.
  intros R D. unfold bind.
  pose proof (evaluate_kind_pure u) as P.
  pose proof (evaluate_kind_out1 u) as O.
  destruct (evaluate_kind u) as [[e|o] u']; simpl in P; subst u';
    [discriminate|].
  destruct (O o D eq_refl) as [v ->].
  unfold unwrap, bind, get, lift. rewrite R. simpl.
  destruct (dmap_err (fun a => getitem a 0) v); simpl; [discriminate|].
  intros H. now injection H as <-.
Qed.

(** X9.  Once the scalar-result flag is set, every call that returns, with
    the cache or without and whatever the length of its query, returns a
    single number (the table being the built one). *)
Theorem flagged_instance_answers_with_number s x y use_cache out :
  return_float s = true ->
  _data s = build s ->
  fst (__call__ x y use_cache s) = inr out ->
  is_number out.
Proof.
  intros R D. rewrite call_unfold.
  assert (R1 : return_float (revalued y s) = true)
    by now rewrite revalued_return_float.
  assert (D1 : _data (revalued y s) = build (revalued y s))
    by now apply revalued_built.
  destruct (_cached s && use_cache).
  - now apply evaluate_unwrap_flagged.
  - destruct (construct_cache_frame (revalued y s) x)
      as (_ & Hr & Hx & Hy & Hd & Hk).
    destruct (_construct_cache x (revalued y s)) as [[e|[]] s'];
      simpl in *; [discriminate|].
    apply evaluate_unwrap_flagged.
    + rewrite Hr, R1. apply orb_true_r.
    + rewrite Hd, D1. symmetry. now apply build_ext.
Qed.

Lemma flagged_instance_answers_with_number_witness :
  let s := snd (__call__ (QScalar (1 # 2)) None true
                  (constructed [0; 1; 2; 3] (Real [0; 1; 0; 1]) "linear")) in
  return_float s = true /\
  fst (__call__ (QArray [1 # 2; 3 # 2; 5 # 2]) None false s)
  = inr (Out0 (Real (1 # 2))) /\
  is_number (Out0 (Real (1 # 2))).
Proof.
  intros s. split; [reflexivity|]. split; [reflexivity|].
  apply (flagged_instance_answers_with_number s
           (QArray [1 # 2; 3 # 2; 5 # 2]) None false);
    reflexivity.
Defined.

(** X10.  The coefficient table is at all times the one [build] gives for the
    knots, values and kind the instance holds: it is so after [__init__],
    a call keeps it so, and so does an assignment of [kind]. *)
Theorem table_is_the_built_one :
  (forall x y kind s, __init__ x y kind = inr s -> _data s = build s) /\
  (forall s x y use_cache,
     _data s = build s ->
     _data (snd (__call__ x y use_cache s))
     = build (snd (__call__ x y use_cache s))) /\
  (forall s kind,
     _data (snd (kind_setter kind s)) = build (snd (kind_setter kind s))).
Proof.
  split; [|split].
  - intros x y kind s H. unfold __init__ in H.
    destruct (negb (existsb (String.eqb kind) allowed_kinds));
      [discriminate|].
    simpl in H. injection H as <-. reflexivity.
  - intros s x y use_cache D. rewrite call_state.
    pose proof (revalued_built y s D) as D1.
    destruct (_cached s && use_cache); [exact D1|].
    destruct (construct_cache_frame (revalued y s) x)
      as (_ & _ & Hx & Hy & Hd & Hk).
    rewrite Hd, D1. symmetry. now apply build_ext.
  - intros s kind. reflexivity.
Qed.

Lemma table_is_the_built_one_witness :
  let s := constructed [0; 1; 2; 3] (Real [0; 1; 0; 1]) "cubic" in
  _data (snd (__call__ (QArray [1 # 2; 4]) None true s))
  = build (snd (__call__ (QArray [1 # 2; 4]) None true s)).
Proof.
  intros s.
  destruct table_is_the_built_one as (A & B & _).
  apply B.
  apply (A [0; 1; 2; 3] (Real [0; 1; 0; 1]) "cubic"%string).
  reflexivity.
Defined.

(** X11.  No call writes the knots or the kind, and a call without new values
    writes neither the value array nor the table; an assignment of [kind]
    writes neither knots nor values.  This holds when the method raises,
    too. *)
Theorem knots_and_kind_are_kept s x y use_cache kind :
  x_array (snd (__call__ x y use_cache s)) = x_array s /\
  _kind (snd (__call__ x y use_cache s)) = _kind s /\
  y_array (snd (__call__ x None use_cache s)) = y_array s /\
  _data (snd (__call__ x None use_cache s)) = _data s /\
  x_array (snd (kind_setter kind s)) = x_array s /\
  y_array (snd (kind_setter kind s)) = y_array s.
Proof.
  rewrite !call_state.
  destruct (construct_cache_frame (revalued y s) x)
    as (_ & _ & Hx & _ & _ & Hk).
  destruct (construct_cache_frame (revalued None s) x)
    as (_ & _ & _ & Hy & Hd & _).
  destruct (_cached s && use_cache).
  - rewrite revalued_x_array, revalued_kind. repeat split.
  - rewrite Hx, Hk, Hy, Hd, revalued_x_array, revalued_kind. repeat split.
Qed.

(** X12.  The setter of [kind] checks nothing: assigning a kind outside
    "nearest", "linear", "cubic" raises nothing and leaves the instance with
    that kind and with no table.  From then on every call that reaches the
    evaluator (at least one knot, or a valid cache that is used) raises
    UnboundLocalError. *)
Theorem setter_takes_any_kind s kind x y use_cache :
  ~ In kind allowed_kinds ->
  let s' := snd (kind_setter kind s) in
  fst (kind_setter kind s) = inr tt /\
  _kind s' = kind /\ _data s' = None /\
  (x_array s <> [] \/ _cached s && use_cache = true ->
   fst (__call__ x y use_cache s') = inl UnboundLocalError).
Proof.
  intros H. cbv zeta.
  assert (Ec : (kind =? "cubic")%string = false).
  { destruct (kind =? "cubic")%string eqn:E; [|reflexivity].
    apply String.eqb_eq in E. exfalso. apply H. subst. simpl. auto. }
  assert (El : (kind =? "linear")%string = false).
  { destruct (kind =? "linear")%string eqn:E; [|reflexivity].
    apply String.eqb_eq in E. exfalso. apply H. subst. simpl. auto. }
  assert (En : (kind =? "nearest")%string = false).
  { destruct (kind =? "nearest")%string eqn:E; [|reflexivity].
    apply String.eqb_eq in E. exfalso. apply H. subst. simpl. auto. }
  set (s1 := set_data (build (set__kind kind s)) (set__kind kind s)).
  assert (E : kind_setter kind s = (inr tt, s1)) by reflexivity.
  rewrite E. simpl fst. simpl snd.
  split; [reflexivity|]. split; [reflexivity|].
  split. { subst s1. simpl. unfold build. simpl. now rewrite Ec, El, En. }
  assert (U : forall u, _kind u = kind ->
            fst ((do out <- evaluate_kind; unwrap out) u) = inl UnboundLocalError).
  { intros u Hu. unfold bind at 1. unfold evaluate_kind, bind, get.
    now rewrite Hu, Ec, El, En. }
  intros R. rewrite call_unfold.
  destruct (_cached s1 && use_cache) eqn:C.
  - apply U. now rewrite revalued_kind.
  - destruct R as [Hx | R]; [|subst s1; simpl in C; congruence].
    rewrite construct_cache_located
      by (rewrite revalued_x_array; exact Hx).
    apply U. now rewrite located_kind, revalued_kind.
Qed.

Lemma setter_takes_any_kind_witness :
  let s := constructed [0; 1; 2; 3] (Real [0; 1; 0; 1]) "linear" in
  let s' := snd (kind_setter "quadratic" s) in
  fst (kind_setter "quadratic" s) = inr tt /\
  _kind s' = "quadratic"%string /\ _data s' = None /\
  fst (__call__ (QScalar 1) None true s') = inl UnboundLocalError.
Proof.
  intros s s'.
  destruct (setter_takes_any_kind s "quadratic" (QScalar 1) None true)
    as (A & B & C & D).
  - simpl. intros [H | [H | [H | []]]]; discriminate H.
  - split; [exact A|]. split; [exact B|]. split; [exact C|].
    apply D. left. discriminate.
Defined.

(** X13.  Passing again the value array the instance holds changes nothing:
    the call behaves, in result and in the instance it leaves, as the same
    call without values (the table being the built one). *)
Theorem same_values_again s x y use_cache :
  y_array s = y -> _data s = build s ->
  __call__ x (Some y) use_cache s = __call__ x None use_cache s.
Proof.
  intros Y D. rewrite !call_unfold.
  assert (E : revalued (Some y) s = revalued None s).
  { destruct s. simpl in *. subst. unfold revalued, set_data, set_y_array.
    simpl. now rewrite D. }
  now rewrite E.
Qed.

Lemma same_values_again_witness :
  let s := constructed [0; 1; 2; 3] (Real [0; 1; 0; 1]) "cubic" in
  __call__ (QArray [1 # 2]) (Some (Real [0; 1; 0; 1])) true s
  = __call__ (QArray [1 # 2]) None true s.
Proof.
  intros s.
  apply (same_values_again s (QArray [1 # 2]) (Real [0; 1; 0; 1]) true);
    reflexivity.
Defined.

(** ** What the evaluator computes *)

Lemma zip_with_map_same {A B C D} (f : B -> C -> D) (g : A -> B) (h : A -> C) l :
  zip_with f (map g l) (map h l) = map (fun a => f (g a) (h a)) l.
Proof. induction l as [|a l IH]; simpl; [reflexivity | now rewrite IH]. Qed.

Lemma ones_map {A} (l : list A) : ones (length l) = map (fun _ => 1) l.
Proof. unfold ones. induction l as [|a l IH]; simpl; [reflexivity | now rewrite IH]. Qed.

Lemma sub1_map (k : Q -> Q) xv : sub1 xv (map k xv) = map (fun q => q - k q) xv.
Proof.
  unfold sub1. rewrite <- (map_id xv) at 1. apply zip_with_map_same.
Qed.

Lemma unwrap_answer outs u :
  fst (unwrap (Out1 (Real outs)) u) = answer (return_float u) outs.
Proof.
  unfold unwrap, answer, bind, get, lift, ret.
  destruct (return_float u); [|reflexivity].
  destruct outs; reflexivity.
Qed.

(** The result of a call that runs the locator, from the evaluator's output on
    the located instance. *)
Lemma call_rebuild_answer x use_cache s outs :
  x_array s <> [] ->
  _cached s && use_cache = false ->
  fst (evaluate_kind (located x s)) = inr (Out1 (Real outs)) ->
  fst (__call__ x None use_cache s)
  = answer ((length (atleast_1d x) =? 1)%nat || return_float s) outs.
Proof.
  intros Hx C E. rewrite (call_rebuild x None use_cache s Hx C).
  simpl revalued. unfold bind.
  pose proof (evaluate_kind_pure (located x s)) as P.
  destruct (evaluate_kind (located x s)) as [[e|o] u]; simpl in E, P;
    [discriminate|].
  injection E as ->. subst u.
  now rewrite unwrap_answer, located_return_float.
Qed.

(** X14.  For kind "nearest", at least one knot and a real value array at
    least as long as the knots, a call that runs the locator returns, for
    each query point, the value stored at the index the locator writes for
    it, that of the first knot at the least computed distance
    ([nearest_index], the float64 differences of line 152): as a sequence, or
    as its first entry alone when the scalar-result flag is set by now. *)
Theorem nearest_call_returns_stored_values s x ys use_cache :
  _kind s = "nearest"%string ->
  x_array s <> [] ->
  _data s = Some (T1 (Real ys)) ->
  (length (x_array s) <= length ys)%nat ->
  _cached s && use_cache = false ->
  fst (__call__ x None use_cache s)
  = answer ((length (atleast_1d x) =? 1)%nat || return_float s)
      (map (fun q => nthQ ys (nearest_index (x_array s) q)) (atleast_1d x)).
Proof.
  intros K Hx D L C. apply (call_rebuild_answer x use_cache s _ Hx C).
  unfold evaluate_kind, bind, get. rewrite located_kind, K. simpl.
  unfold _call_nearest, bind, get, getattr, lift, raise, ret.
  rewrite located_data, D, located_idxs. unfold locate. rewrite K. simpl.
  rewrite read_cells_written. simpl.
  rewrite take_idxs_in_range.
  - simpl. now rewrite map_map.
  - apply Forall_map, Forall_forall. intros q _.
    pose proof (nearest_index_spec (x_array s) q Hx) as [H _]. lia.
Qed.

Lemma nearest_call_returns_stored_values_witness :
  let s := constructed [0; 1; 2] (Real [5; 6; 7]) "nearest" in
  let x := QArray [4 # 10; 3] in
  fst (__call__ x None true s)
  = answer false (map (fun q => nthQ [5; 6; 7] (nearest_index [0; 1; 2] q))
                    (atleast_1d x)).
Proof.
  intros s x.
  apply (nearest_call_returns_stored_values s x [5; 6; 7] true);
    [reflexivity | discriminate | reflexivity | simpl; lia | reflexivity].
Defined.

Lemma located_bracket_idxs x s :
  (_kind s =? "nearest")%string = false ->
  _idxs (located x s)
  = Some (map Some (map (bracket (x_array s)) (atleast_1d x))).
Proof. intros N. rewrite located_idxs. unfold locate. now rewrite N. Qed.

(** X15.  For kind "linear", two knots or more, a real table of two rows [aa]
    and [bb] of n-1 entries and no query point above the last knot, a call
    that runs the locator returns for each query point [q] with bracket index
    [j] the value aa[j] * 1 + bb[j] * (q - knots[j]): the line of interval
    [j] at the offset of [q] from its left knot. *)
Theorem linear_call_evaluates_line s x aa bb use_cache :
  _kind s = "linear"%string ->
  _data s = Some (T2 (Real [aa; bb])) ->
  length aa = (length (x_array s) - 1)%nat ->
  length bb = (length (x_array s) - 1)%nat ->
  (2 <= length (x_array s))%nat ->
  in_range (x_array s) (atleast_1d x) = true ->
  _cached s && use_cache = false ->
  fst (__call__ x None use_cache s)
  = answer ((length (atleast_1d x) =? 1)%nat || return_float s)
      (map (fun q =>
              let j := bracket (x_array s) q in
              nthQ aa j * 1 + nthQ bb j * (q - nthQ (x_array s) j))
           (atleast_1d x)).
Proof.
  intros K D La Lb Hn R C.
  assert (Hx : x_array s <> []) by (destruct (x_array s); simpl in Hn; [lia | discriminate]).
  apply (call_rebuild_answer x use_cache s _ Hx C).
  assert (N : (_kind s =? "nearest")%string = false) by now rewrite K.
  unfold evaluate_kind, bind, get. rewrite located_kind, K. simpl.
  unfold _call_linear, bind, get, getattr, lift, raise, ret.
  rewrite located_data, D, (located_bracket_idxs x s N). simpl.
  rewrite read_cells_written. simpl.
  set (xv := atleast_1d x). set (knots := x_array s) in *.
  pose proof (in_range_brackets knots xv R Hn) as F.
  rewrite !take_idxs_in_range by (rewrite ?La, ?Lb; exact F).
  simpl. rewrite (located_diffs x s N). simpl.
  unfold powers. rewrite K. simpl. fold xv knots.
  rewrite !map_map, ones_map,
    (sub1_map (fun q => nthQ knots (bracket knots q))).
  rewrite (mul2_same (length xv))
    by (try reflexivity; repeat constructor; apply length_map).
  simpl. rewrite !zip_with_map_same. reflexivity.
Qed.

Lemma linear_call_evaluates_line_witness :
  let s := constructed [0; 1; 2; 3] (Real [0; 10; 20; 30]) "linear" in
  let x := QArray [5 # 2; -1] in
  fst (__call__ x None true s)
  = answer false
      (map (fun q =>
              let j := bracket [0; 1; 2; 3] q in
              nthQ [0; 10; 20] j * 1
              + nthQ [10; 10; 10] j * (q - nthQ [0; 1; 2; 3] j))
           (atleast_1d x)).
Proof.
  intros s x.
  apply (linear_call_evaluates_line s x [0; 10; 20] [10; 10; 10] true);
    [reflexivity | reflexivity | reflexivity | reflexivity
    | simpl; lia | reflexivity | reflexivity].
Defined.

(** X16.  For kind "cubic", two knots or more, a real table of four rows
    [aa], [bb], [cc], [dd] of n-1 entries and no query point above the last
    knot, a call that runs the locator returns for each query point [q] with
    bracket index [j] and offset d = q - knots[j] the value
    ((aa[j] * 1 + bb[j] * d) + cc[j] * d^2) + dd[j] * d^3. *)
Theorem cubic_call_evaluates_cubic s x aa bb cc dd use_cache :
  _kind s = "cubic"%string ->
  _data s = Some (T2 (Real [aa; bb; cc; dd])) ->
  Forall (fun row => length row = (length (x_array s) - 1)%nat) [aa; bb; cc; dd] ->
  (2 <= length (x_array s))%nat ->
  in_range (x_array s) (atleast_1d x) = true ->
  _cached s && use_cache = false ->
  fst (__call__ x None use_cache s)
  = answer ((length (atleast_1d x) =? 1)%nat || return_float s)
      (map (fun q =>
              let j := bracket (x_array s) q in
              let d := q - nthQ (x_array s) j in
              nthQ aa j * 1 + nthQ bb j * d + nthQ cc j * d ^ 2
              + nthQ dd j * d ^ 3)
           (atleast_1d x)).
Proof.
  intros K D L Hn R C.
  assert (Hx : x_array s <> [])
    by (destruct (x_array s); simpl in Hn; [lia | discriminate]).
  apply (call_rebuild_answer x use_cache s _ Hx C).
  assert (N : (_kind s =? "nearest")%string = false) by now rewrite K.
  unfold evaluate_kind, bind, get. rewrite located_kind, K. simpl.
  unfold _call_cubic, bind, get, getattr, lift, raise, ret.
  rewrite located_data, D, (located_bracket_idxs x s N). simpl.
  rewrite read_cells_written. simpl.
  set (xv := atleast_1d x). set (knots := x_array s) in *.
  pose proof (in_range_brackets knots xv R Hn) as F.
  inversion_clear L as [|? ? La L1]. inversion_clear L1 as [|? ? Lb L2].
  inversion_clear L2 as [|? ? Lc L3]. inversion_clear L3 as [|? ? Ld _].
  rewrite !take_idxs_in_range by (rewrite ?La, ?Lb, ?Lc, ?Ld; exact F).
  simpl. rewrite (located_diffs x s N). simpl.
  unfold powers. rewrite K. simpl. fold xv knots.
  rewrite !map_map, ones_map,
    (sub1_map (fun q => nthQ knots (bracket knots q))), !map_map.
  rewrite (mul2_same (length xv))
    by (try reflexivity; repeat constructor; apply length_map).
  simpl. rewrite !zip_with_map_same. reflexivity.
Qed.

Lemma cubic_call_evaluates_cubic_witness :
  let s := constructed [0; 1; 2; 3] (Real [0; 1; 0; 1]) "cubic" in
  let aa := [0; 1; 0] in
  let bb := [144000 # 86400; -25920000 # 77760000; -1800 # 5400] in
  let cc := [0 # 2; -57600 # 28800; 3600 # 1800] in
  let dd := [-57600 # 86400; 103680000 # 77760000; -3600 # 5400] in
  let x := QArray [5 # 2; -1] in
  fst (__call__ x None true s)
  = answer false
      (map (fun q =>
              let j := bracket [0; 1; 2; 3] q in
              let d := q - nthQ [0; 1; 2; 3] j in
              nthQ aa j * 1 + nthQ bb j * d + nthQ cc j * d ^ 2
              + nthQ dd j * d ^ 3)
           (atleast_1d x)).
Proof.
  intros s aa bb cc dd x.
  apply (cubic_call_evaluates_cubic s x aa bb cc dd true);
    [reflexivity | reflexivity | repeat constructor
    | simpl; lia | reflexivity | reflexivity].
Defined.

(** ** Errors of the evaluator *)

Lemma dmap_err_first_fails {A B} (f : A -> result B) (P : A -> Prop) e d :
  (forall a, P a -> f a = inl e) -> dall P d -> dmap_err f d = inl e.
Proof.
  intros Hf H. destruct d as [a | re im]; simpl in *.
  - now rewrite (Hf a H).
  - destruct H as [H _]. now rewrite (Hf re H).
Qed.

(** X17.  For kind "nearest" the value array is indexed at evaluation only: a
    call that runs the locator on a query holding a point for which the index
    the locator writes ([nearest_index], the first knot at the least computed
    distance) lies beyond the value array raises IndexError. *)
Theorem nearest_call_beyond_values s x v q use_cache :
  _kind s = "nearest"%string ->
  x_array s <> [] ->
  _data s = Some (T1 v) ->
  In q (atleast_1d x) ->
  dall (fun a => (length a <= nearest_index (x_array s) q)%nat) v ->
  _cached s && use_cache = false ->
  fst (__call__ x None use_cache s) = inl IndexError.
Proof.
  intros K Hx D Hq Hv C. rewrite (call_rebuild x None use_cache s Hx C).
  simpl revalued. unfold bind at 1.
  assert (E : fst (evaluate_kind (located x s)) = inl IndexError).
  { unfold evaluate_kind, bind, get. rewrite located_kind, K. simpl.
    unfold _call_nearest, bind, get, getattr, lift, raise, ret.
    rewrite located_data, D, located_idxs. unfold locate. rewrite K. simpl.
    rewrite read_cells_written. simpl.
    rewrite (dmap_err_first_fails _
               (fun a => (length a <= nearest_index (x_array s) q)%nat)
               IndexError v); [reflexivity | | exact Hv].
    intros a Ha.
    apply (take_idxs_out_of_range a _ (nearest_index (x_array s) q));
      [now apply in_map | exact Ha]. }
  destruct (evaluate_kind (located x s)) as [[e|o] u]; simpl in E;
    [|discriminate].
  now injection E as ->.
Qed.

Lemma nearest_call_beyond_values_witness :
  let s := constructed [0; 1; 2] (Real [0; 1]) "nearest" in
  fst (__call__ (QArray [4 # 10; 19 # 10]) None true s) = inl IndexError.
Proof.
  intros s.
  apply (nearest_call_beyond_values s (QArray [4 # 10; 19 # 10])
           (Real [0; 1]) (19 # 10) true);
    [reflexivity | discriminate | reflexivity
    | simpl; right; left; reflexivity | vm_compute; lia | reflexivity].
Defined.

Lemma call_linear_rows_mismatch u idxs m diffs r c :
  _idxs u = Some (map Some idxs) ->
  _data u = Some (T2 m) ->
  _diffs u = Some diffs ->
  dallb (has_shape r c) m = true ->
  Forall (fun i => (i < c)%nat) idxs ->
  bcast_len r (length diffs) = None ->
  fst (_call_linear u) = inl ValueError.
Proof.
  intros Hi Hd Hp Hm Fi Hb.
  unfold _call_linear, bind, get, getattr, lift, raise, ret.
  rewrite Hi, Hd. simpl. rewrite read_cells_written. simpl.
  assert (T : forall a, has_shape r c a = true ->
            take_cols a idxs = inr (map (fun row => map (nthQ row) idxs) a) /\
            mul2 (map (fun row => map (nthQ row) idxs) a) diffs = inl ValueError).
  { intros a Ha. destruct (has_shape_true _ _ _ Ha) as [La Fa].
    split; [now apply (take_cols_in_range _ _ c)|].
    unfold mul2. now rewrite length_map, La, Hb. }
  destruct m as [a | re im]; simpl in Hm |- *.
  - destruct (T a Hm) as [-> E]. simpl. rewrite Hp. simpl. now rewrite E.
  - apply andb_true_iff in Hm. destruct Hm as [H1 H2].
    destruct (T re H1) as [-> E1]. destruct (T im H2) as [-> E2].
    simpl. rewrite Hp. simpl. now rewrite E1.
Qed.

(** X18.  A cache built under "linear" does not serve "cubic", nor one built
    under "cubic" "linear": after the kind is changed from one to the other
    (the new table having the shape of its kind, two knots or more, no cached
    query point above the last knot), a call with the cache on raises
    ValueError, because the table's rows and the cached power rows are 4 and
    2, or 2 and 4, and do not broadcast. *)
Theorem powers_of_other_kind_raise s x x' old new :
  (old = "linear"%string /\ new = "cubic"%string) \/
  (old = "cubic"%string /\ new = "linear"%string) ->
  _kind s = old ->
  (2 <= length (x_array s))%nat ->
  in_range (x_array s) (atleast_1d x) = true ->
  let s1 := located x s in
  let s2 := snd (kind_setter new s1) in
  well_shaped s2 = true ->
  fst (__call__ x' None true s2) = inl ValueError.
Proof.
  intros O K Hn R s1 s2 W.
  assert (N : (_kind s =? "nearest")%string = false)
    by (destruct O as [[-> _] | [-> _]]; rewrite K; reflexivity).
  assert (C2 : _cached s2 = true) by (subst s2 s1; apply located_cached).
  rewrite (call_cached x' None s2 C2). simpl revalued. unfold bind at 1.
  assert (Hi : _idxs s2 = Some (map Some (map (bracket (x_array s)) (atleast_1d x))))
    by (subst s2 s1; apply (located_bracket_idxs x s N)).
  assert (Hp : _diffs s2 = Some (powers (_kind s) (x_array s) (atleast_1d x)))
    by (subst s2 s1; apply (located_diffs x s N)).
  assert (Hk : _kind s2 = new) by reflexivity.
  assert (Hxa : x_array s2 = x_array s) by (subst s2 s1; apply located_x_array).
  pose proof (in_range_brackets _ _ R Hn) as F.
  pose proof (length_powers (_kind s) (x_array s) (atleast_1d x)) as Lp.
  assert (E : fst (evaluate_kind s2) = inl ValueError).
  { unfold evaluate_kind, bind, get. rewrite Hk.
    unfold well_shaped in W. rewrite Hk, Hxa in W.
    destruct (_data s2) as [[v|m]|] eqn:D; [| |discriminate].
    { destruct O as [[_ ->] | [_ ->]]; discriminate. }
    destruct O as [[Ho ->] | [Ho ->]]; simpl in W |- *.
    - apply (call_linear_rows_mismatch s2 _ m _ 4 _ Hi D Hp W F).
      rewrite Lp, K, Ho. reflexivity.
    - rewrite orb_false_r in W.
      apply (call_linear_rows_mismatch s2 _ m _ 2 _ Hi D Hp W F).
      rewrite Lp, K, Ho. reflexivity. }
  destruct (evaluate_kind s2) as [[e|o] u]; simpl in E; [|discriminate].
  now injection E as ->.
Qed.

Lemma powers_of_other_kind_raise_witness :
  let s := constructed [0; 1; 2; 3] (Real [0; 10; 20; 30]) "cubic" in
  let x := QArray [1 # 2; 3 # 2; 3] in
  fst (__call__ (QScalar 1) None true (snd (kind_setter "linear" (located x s))))
  = inl ValueError.
Proof.
  intros s x.
  apply (powers_of_other_kind_raise s x (QScalar 1) "cubic" "linear");
    [right; split; reflexivity | reflexivity | simpl; lia
    | reflexivity | reflexivity].
Defined.

Lemma call_linear_no_powers u idxs m r c :
  _idxs u = Some (map Some idxs) ->
  _data u = Some (T2 m) ->
  _diffs u = None ->
  dallb (has_shape r c) m = true ->
  Forall (fun i => (i < c)%nat) idxs ->
  fst (_call_linear u) = inl AttributeError.
Proof.
  intros Hi Hd Hp Hm Fi.
  unfold _call_linear, bind, get, getattr, lift, raise, ret.
  rewrite Hi, Hd. simpl. rewrite read_cells_written. simpl.
  assert (T : forall a, has_shape r c a = true ->
            take_cols a idxs = inr (map (fun row => map (nthQ row) idxs) a)).
  { intros a Ha. destruct (has_shape_true _ _ _ Ha) as [La Fa].
    now apply (take_cols_in_range _ _ c). }
  destruct m as [a | re im]; simpl in Hm |- *.
  - rewrite (T a Hm). simpl. now rewrite Hp.
  - apply andb_true_iff in Hm. destruct Hm as [H1 H2].
    rewrite (T re H1), (T im H2). simpl. now rewrite Hp.
Qed.

(** X19.  The "nearest" locator writes no offset powers.  On an instance that
    never had any, after a cache is built under "nearest" and the kind is
    changed to "linear" or "cubic" (the new table having the shape of its
    kind), a call with the cache on raises AttributeError for the missing
    [_diffs] when every cached index is a column of the table, that is when
    the locator wrote the index of the last knot for no cached query
    point. *)
Theorem nearest_cache_has_no_powers s x x' new :
  new = "linear"%string \/ new = "cubic"%string ->
  _kind s = "nearest"%string ->
  x_array s <> [] ->
  _diffs s = None ->
  Forall (fun q => (nearest_index (x_array s) q < length (x_array s) - 1)%nat)
    (atleast_1d x) ->
  let s1 := snd (_construct_cache x s) in
  let s2 := snd (kind_setter new s1) in
  well_shaped s2 = true ->
  _diffs s1 = None /\
  fst (__call__ x' None true s2) = inl AttributeError.
Proof.
  intros O K Hx Hd F s1 s2 W.
  assert (E1 : s1 = located x s)
    by (subst s1; now rewrite (construct_cache_located x s Hx)).
  assert (N : (_kind s =? "nearest")%string = true) by now rewrite K.
  assert (Hp1 : _diffs s1 = None).
  { rewrite E1. unfold located. rewrite N.
    destruct (length (atleast_1d x) =? 1)%nat; exact Hd. }
  split; [exact Hp1|].
  assert (C2 : _cached s2 = true)
    by (subst s2; simpl; rewrite E1; apply located_cached).
  rewrite (call_cached x' None s2 C2). simpl revalued. unfold bind at 1.
  assert (Hi : _idxs s2
               = Some (map Some (map (nearest_index (x_array s)) (atleast_1d x)))).
  { subst s2. simpl. rewrite E1, located_idxs. unfold locate. now rewrite N. }
  assert (Hp : _diffs s2 = None) by (subst s2; exact Hp1).
  assert (Hk : _kind s2 = new) by reflexivity.
  assert (Hxa : x_array s2 = x_array s)
    by (subst s2; simpl; rewrite E1; apply located_x_array).
  assert (F' : Forall (fun i => (i < length (x_array s) - 1)%nat)
                 (map (nearest_index (x_array s)) (atleast_1d x))).
  { apply Forall_map. exact F. }
  assert (E : fst (evaluate_kind s2) = inl AttributeError).
  { unfold evaluate_kind, bind, get. rewrite Hk.
    unfold well_shaped in W. rewrite Hk, Hxa in W.
    destruct (_data s2) as [[v|m]|] eqn:D; [| |discriminate].
    { destruct O as [-> | ->]; discriminate. }
    destruct O as [-> | ->]; simpl in W |- *.
    - rewrite orb_false_r in W.
      exact (call_linear_no_powers s2 _ m 2 _ Hi D Hp W F').
    - exact (call_linear_no_powers s2 _ m 4 _ Hi D Hp W F'). }
  destruct (evaluate_kind s2) as [[e|o] u]; simpl in E; [|discriminate].
  now injection E as ->.
Qed.

Lemma nearest_cache_has_no_powers_witness :
  let s := constructed [0; 1; 2; 3] (Real [0; 10; 20; 30]) "nearest" in
  let x := QArray [1 # 2; 3 # 2] in
  let s1 := snd (_construct_cache x s) in
  _diffs s1 = None /\
  fst (__call__ (QScalar 1) None true (snd (kind_setter "linear" s1)))
  = inl AttributeError.
Proof.
  intros s x.
  apply (nearest_cache_has_no_powers s x (QScalar 1) "linear");
    [left; reflexivity | reflexivity | discriminate | reflexivity
    | repeat constructor | reflexivity].
Defined.
